(** * goftpd: access control lists, permissions and the credential store

    A shallow embedding of package [acl] of goftpd (the ACL parser and
    decision procedure of [acl.go], the credential store of
    [authenticator.go]) together with the properties its specification
    states about it.

    Conventions of the embedding.
    - A Go [string] is a sequence of bytes: Rocq's [string].
    - [strings.ToLower] and [strings.Fields] belong to Go's standard
      library.  They are embedded as the library has them, the ASCII path
      and the path of the strings with a byte above 0x7F, which reads the
      string rune by rune (UTF-8).  The table of the lower case of the
      runes above ASCII is a parameter of the embedding, the class
      [LowerCaseTable].
    - A Go function returning [(T, error)] returns a sum [error + T].
    - A [for ... range] loop that leaves the function from inside its body
      is a structural recursion over the slice. *)

From Stdlib Require Import Ascii String List Bool Arith Lia NArith.
From stdpp Require Import base option list strings gmap.

Local Open Scope string_scope.
Local Open Scope list_scope.

(** ** Errors *)

(** Go error values.  The package sentinels are compared by identity in the
    source ([err != ErrUserDoesntExist]); [errors_New msg] is the value of a
    call [errors.New(msg)] or [fmt.Errorf] with the text [msg]. *)
Inductive error : Type :=
  | ErrUserExists
  | ErrUserDoesntExist
  | ErrGroupExists
  | ErrGroupDoesntExist
  | badger_ErrKeyNotFound
  | errors_New (msg : string).

(** [err.Error()]. *)
Definition Error (e : error) : string :=
  match e with
  | ErrUserExists => "user exists"
  | ErrUserDoesntExist => "user does not exist"
  | ErrGroupExists => "group exists"
  | ErrGroupDoesntExist => "group does not exist"
  | badger_ErrKeyNotFound => "Key not found"
  | errors_New msg => msg
  end.

#[global] Instance error_eq_dec : EqDecision error.
Proof. solve_decision. Defined.

(** ** Go's [unicode/utf8], [unicode] and [strings] packages

    A Go [rune] (int32) is a number in [N]: the runes that arise here are
    never negative.  The functions follow the sources of the Go library;
    the case table of package [unicode] is a parameter. *)

(** The table [unicode.CaseRanges] read by [unicode.To(unicode.LowerCase, r)]:
    the lower case of a rune above ASCII. *)
Class LowerCaseTable : Type := unicode_To_LowerCase : N -> N.

Definition RuneError : N := 0xFFFD.
Definition MaxRune : N := 0x10FFFF.
Definition RuneSelf : N := 0x80.

(** A byte as a number, and [byte(n)]. *)
Definition byte_of (c : ascii) : N := N_of_ascii c.
Definition to_byte (n : N) : ascii := ascii_of_N (n mod 256).

(** [utf8.DecodeRuneInString]: the first rune of [s] and its width in
    bytes; [(RuneError, 1)] on a byte that starts no valid encoding. *)
Definition DecodeRuneInString (s : string) : N * nat :=
  match s with
  | EmptyString => (RuneError, O)
  | String c0 r0 =>
      let s0 := byte_of c0 in
      if (s0 <? 0x80)%N then (s0, 1%nat)
      else if ((s0 <? 0xC2) || (0xF4 <? s0))%N then (RuneError, 1%nat)
      else
        let lo := (if s0 =? 0xE0 then 0xA0 else if s0 =? 0xF0 then 0x90 else 0x80)%N in
        let hi := (if s0 =? 0xED then 0x9F else if s0 =? 0xF4 then 0x8F else 0xBF)%N in
        match r0 with
        | EmptyString => (RuneError, 1%nat)
        | String c1 r1 =>
            let s1 := byte_of c1 in
            if ((s1 <? lo) || (hi <? s1))%N then (RuneError, 1%nat)
            else if (s0 <? 0xE0)%N then
              (N.lor (N.shiftl (N.land s0 0x1F) 6) (N.land s1 0x3F), 2%nat)
            else
              match r1 with
              | EmptyString => (RuneError, 1%nat)
              | String c2 r2 =>
                  let s2 := byte_of c2 in
                  if ((s2 <? 0x80) || (0xBF <? s2))%N then (RuneError, 1%nat)
                  else if (s0 <? 0xF0)%N then
                    (N.lor (N.shiftl (N.land s0 0x0F) 12)
                       (N.lor (N.shiftl (N.land s1 0x3F) 6) (N.land s2 0x3F)), 3%nat)
                  else
                    match r2 with
                    | EmptyString => (RuneError, 1%nat)
                    | String c3 _ =>
                        let s3 := byte_of c3 in
                        if ((s3 <? 0x80) || (0xBF <? s3))%N then (RuneError, 1%nat)
                        else
                          (N.lor (N.shiftl (N.land s0 0x07) 18)
                             (N.lor (N.shiftl (N.land s1 0x3F) 12)
                                (N.lor (N.shiftl (N.land s2 0x3F) 6) (N.land s3 0x3F))),
                           4%nat)
                    end
              end
        end
  end.

(** The continuation byte of an encoding that carries the bits of [r] from
    bit [sh] on. *)
Definition cont_byte (r sh : N) : ascii :=
  to_byte (N.lor 0x80 (N.land (N.shiftr r sh) 0x3F)).

(** [utf8.EncodeRune] ([strings.Builder.WriteRune]): the bytes of a rune; a
    surrogate and a rune above [MaxRune] are written as [RuneError]. *)
Definition EncodeRune (r : N) : string :=
  if (r <=? 0x7F)%N then String (to_byte r) EmptyString
  else if (r <=? 0x7FF)%N then
    String (to_byte (N.lor 0xC0 (N.shiftr r 6))) (String (cont_byte r 0) EmptyString)
  else
    let r' := if ((MaxRune <? r) || ((0xD800 <=? r) && (r <=? 0xDFFF)))%N
              then RuneError else r in
    if (r' <=? 0xFFFF)%N then
      String (to_byte (N.lor 0xE0 (N.shiftr r' 12)))
        (String (cont_byte r' 6) (String (cont_byte r' 0) EmptyString))
    else
      String (to_byte (N.lor 0xF0 (N.shiftr r' 18)))
        (String (cont_byte r' 12)
           (String (cont_byte r' 6) (String (cont_byte r' 0) EmptyString))).

(** The first [n] bytes of a string, and the string without them. *)
Fixpoint take_bytes (n : nat) (s : string) : string :=
  match n, s with
  | S n', String c r => String c (take_bytes n' r)
  | _, _ => EmptyString
  end.

Fixpoint drop_bytes (n : nat) (s : string) : string :=
  match n, s with
  | S n', String _ r => drop_bytes n' r
  | _, _ => s
  end.

(** [for _, c := range s]: the runes of [s] in order, each with the bytes it
    was decoded from; [skip] counts the bytes still to pass of the rune
    before. *)
Fixpoint range_string (skip : nat) (s : string) : list (N * string) :=
  match s with
  | EmptyString => []
  | String _ r =>
      match skip with
      | S k => range_string k r
      | O =>
          let '(c, width) := DecodeRuneInString s in
          (c, take_bytes width s) :: range_string (width - 1) r
      end
  end.

(** [unicode.IsSpace]: the switch on Latin-1, then the table
    [unicode.White_Space]. *)
Definition IsSpace (r : N) : bool :=
  if (r <=? 0xFF)%N then
    (((0x09 <=? r) && (r <=? 0x0D)) || (r =? 0x20) || (r =? 0x85) || (r =? 0xA0))%N
  else
    ((r =? 0x1680) || ((0x2000 <=? r) && (r <=? 0x200A)) || (r =? 0x2028)
     || (r =? 0x2029) || (r =? 0x202F) || (r =? 0x205F) || (r =? 0x3000))%N.

(** [unicode.ToLower]: ASCII by arithmetic, the other runes by the table. *)
Definition unicode_ToLower `{LowerCaseTable} (r : N) : N :=
  if (r <=? 0x7F)%N then
    if ((0x41 <=? r) && (r <=? 0x5A))%N then (r + 0x20)%N else r
  else unicode_To_LowerCase r.

(** The second loop of [strings.Map]: every rune is mapped and written. *)
Fixpoint Map_rest (mapping : N -> N) (rs : list (N * string)) : string :=
  match rs with
  | [] => EmptyString
  | (c, _) :: rest => EncodeRune (mapping c) +:+ Map_rest mapping rest
  end.

(** The first loop of [strings.Map]: the bytes are kept as long as the
    mapping changes nothing; a rune that is changed, and a byte that is no
    valid encoding, are written from the mapping, and the second loop takes
    over. *)
Fixpoint Map_loop (mapping : N -> N) (rs : list (N * string)) : string :=
  match rs with
  | [] => EmptyString
  | (c, bytes) :: rest =>
      let r := mapping c in
      if (r =? c)%N && (negb (c =? RuneError)%N || negb (String.length bytes =? 1)%nat)
      then bytes +:+ Map_loop mapping rest
      else EncodeRune r +:+ Map_rest mapping rest
  end.

(** [strings.Map]. *)
Definition Map (mapping : N -> N) (s : string) : string :=
  Map_loop mapping (range_string 0 s).

(** The two flags of the first loop of [strings.ToLower]. *)
Fixpoint isASCII (s : string) : bool :=
  match s with
  | EmptyString => true
  | String c r => (byte_of c <? RuneSelf)%N && isASCII r
  end.

Fixpoint hasUpper (s : string) : bool :=
  match s with
  | EmptyString => false
  | String c r => ((0x41 <=? byte_of c) && (byte_of c <=? 0x5A))%N || hasUpper r
  end.

Definition lower_byte (c : ascii) : ascii :=
  let n := nat_of_ascii c in
  if ((65 <=? n) && (n <=? 90))%nat then ascii_of_nat (n + 32) else c.

(** The ASCII path of [strings.ToLower]: every byte from 'A' to 'Z' is
    moved to lower case. *)
Fixpoint ToLower_ascii (s : string) : string :=
  match s with
  | EmptyString => EmptyString
  | String c r => String (lower_byte c) (ToLower_ascii r)
  end.

(** [strings.ToLower]. *)
Definition ToLower `{LowerCaseTable} (s : string) : string :=
  if isASCII s then (if hasUpper s then ToLower_ascii s else s)
  else Map unicode_ToLower s.

(** The white space of the ASCII path of [strings.Fields]: tab, line feed,
    vertical tab, form feed, carriage return and space. *)
Definition asciiSpace (c : ascii) : bool :=
  let n := nat_of_ascii c in
  (((9 <=? n) && (n <=? 13)) || (n =? 32))%nat.

(** The fields between the bytes that satisfy [sep], in order:
    [strings.FieldsFunc] for a separator that is a set of ASCII bytes. *)
Fixpoint FieldsFunc (sep : ascii -> bool) (s : string) : list string :=
  match s with
  | EmptyString => []
  | String c r =>
      if sep c then FieldsFunc sep r
      else
        match r with
        | EmptyString => [String c EmptyString]
        | String c' _ =>
            if sep c' then String c EmptyString :: FieldsFunc sep r
            else
              match FieldsFunc sep r with
              | f :: fs => String c f :: fs
              | [] => [String c EmptyString]
              end
        end
  end.

(** [strings.FieldsFunc] on the runes of a string: the maximal runs of
    runes that do not satisfy [f], each as the bytes it was read from. *)
Fixpoint fields_of_runes (f : N -> bool) (rs : list (N * string)) : list string :=
  match rs with
  | [] => []
  | (c, bytes) :: rest =>
      if f c then fields_of_runes f rest
      else
        match rest with
        | [] => [bytes]
        | (c', _) :: _ =>
            if f c' then bytes :: fields_of_runes f rest
            else
              match fields_of_runes f rest with
              | fl :: fs => (bytes +:+ fl) :: fs
              | [] => [bytes]
              end
        end
  end.

(** [strings.Fields]: the ASCII path when no byte is above 0x7F, otherwise
    [FieldsFunc(s, unicode.IsSpace)]. *)
Definition Fields (s : string) : list string :=
  if isASCII s then FieldsFunc asciiSpace s
  else fields_of_runes IsSpace (range_string 0 s).

(** A table to run examples on: the upper case letters of Latin-1 and the
    Kelvin sign have a lower case, the other runes have none. *)
Definition example_table : LowerCaseTable :=
  fun r =>
    if ((0xC0 <=? r) && (r <=? 0xDE) && negb (r =? 0xD7))%N then (r + 0x20)%N
    else if (r =? 0x212A)%N then 0x6B%N
    else r.

(** [strings.Join]. *)
Fixpoint Join (l : list string) (sep : string) : string :=
  match l with
  | [] => EmptyString
  | [x] => x
  | x :: r => x +:+ sep +:+ Join r sep
  end.

(** ** acl.go: collections and ACLs *)

(** The interface [User] of acl.go: what a permission check reads of an
    identity. *)
Class User (U : Type) : Type := {
  Name : U -> string;
  Groups : U -> list string;
  Flags : U -> list string
}.

(** The struct [collection]. *)
Record collection : Type := mkCollection {
  all : bool;
  users : list string;
  groups : list string;
  flags : list string
}.

(** The struct [ACL]. *)
Record ACL : Type := mkACL {
  allowed : collection;
  blocked : collection
}.

(** The zero values: [var a ACL]. *)
Definition collection_zero : collection := mkCollection false [] [] [].
Definition ACL_zero : ACL := mkACL collection_zero collection_zero.

(** [c.all = true], [c.users = append(c.users, f)] and
    [c.groups = append(c.groups, f)]. *)
Definition set_all (c : collection) : collection :=
  mkCollection true (users c) (groups c) (flags c).
Definition append_users (f : string) (c : collection) : collection :=
  mkCollection (all c) (users c ++ [f]) (groups c) (flags c).
Definition append_groups (f : string) (c : collection) : collection :=
  mkCollection (all c) (users c) (groups c ++ [f]) (flags c).

(** The pointer [c] of [NewFromString] is [&a.allowed] or [&a.blocked]:
    [is_blocked] says which, and [through] writes through it. *)
Definition through (is_blocked : bool) (g : collection -> collection) (a : ACL) : ACL :=
  if is_blocked then mkACL (allowed a) (g (blocked a))
  else mkACL (g (allowed a)) (blocked a).

Definition is_star (f : string) : bool := String.eqb f "*".

(** The [switch f[0]] of [NewFromString], [f] being [String c r] (after the
    ['!'] was cut off, if there was one). *)
Definition parse_term (is_blocked : bool) (c : ascii) (r : string) (a : ACL) : error + ACL :=
  if Ascii.eqb c "-" then
    match r with
    | EmptyString => inl (errors_New "expected string after '-'")
    | _ =>
        if is_star r then inr (through is_blocked set_all a)
        else inr (through is_blocked (append_users r) a)
    end
  else if Ascii.eqb c "=" then
    match r with
    | EmptyString => inl (errors_New "expected string after '='")
    | _ =>
        if is_star r then inr (through is_blocked set_all a)
        else inr (through is_blocked (append_groups r) a)
    end
  else
    if is_star (String c r) then inr (through is_blocked set_all a)
    else inr (through is_blocked (append_groups (String c r)) a).

(** One turn of the loop of [NewFromString] on the field [f]. *)
Definition parse_field (f : string) (a : ACL) : error + ACL :=
  match f with
  | EmptyString => inr a
  | String c0 r0 =>
      if Ascii.eqb c0 "!" then
        match r0 with
        | EmptyString => inl (errors_New "expected string after '!'")
        | String c1 r1 => parse_term true c1 r1 a
        end
      else parse_term false c0 r0 a
  end.

(** The loop of [NewFromString]: it stops at the first error. *)
Fixpoint parse_fields (fs : list string) (a : ACL) : error + ACL :=
  match fs with
  | [] => inr a
  | f :: rest =>
      match parse_field f a with
      | inl e => inl e
      | inr a' => parse_fields rest a'
      end
  end.

Definition NewFromString `{LowerCaseTable} (s : string) : error + ACL :=
  match s with
  | EmptyString => inl (errors_New "no input string given")
  | _ => parse_fields (Fields (ToLower s)) ACL_zero
  end.

(** The loop of [collection.has], [e] already in lower case. *)
Fixpoint has_loop (s : list string) (e : string) : bool :=
  match s with
  | [] => false
  | x :: s' => if String.eqb x e then true else has_loop s' e
  end.

Definition has `{LowerCaseTable} (c : collection) (s : list string) (e : string) : bool :=
  has_loop s (ToLower e).

Definition hasUser `{LowerCaseTable} (c : collection) (u : string) : bool := has c (users c) u.
Definition hasGroup `{LowerCaseTable} (c : collection) (g : string) : bool := has c (groups c) g.
Definition hasFlag `{LowerCaseTable} (c : collection) (f : string) : bool := has c (flags c) f.

(** [for idx := range l { if p(l[idx]) { return ... } }]: [true] when the
    loop returns from its body. *)
Fixpoint range_hit (p : string -> bool) (l : list string) : bool :=
  match l with
  | [] => false
  | x :: l' => if p x then true else range_hit p l'
  end.

(** [ACL.Allowed]. *)
Definition ACL_Allowed `{LowerCaseTable} `{User U} (a : ACL) (u : U) : bool :=
  if hasUser (blocked a) (Name u) then false
  else if range_hit (hasGroup (blocked a)) (Groups u) then false
  else if range_hit (hasFlag (blocked a)) (Flags u) then false
  else if hasUser (allowed a) (Name u) then true
  else if range_hit (hasGroup (allowed a)) (Groups u) then true
  else if range_hit (hasFlag (allowed a)) (Flags u) then true
  else if all (blocked a) then false
  else if all (allowed a) then true
  else false.

(** An identity given by its three attributes. *)
Record Identity : Type := mkIdentity {
  id_name : string;
  id_groups : list string;
  id_flags : list string
}.

#[global] Instance Identity_User : User Identity :=
  {| Name := id_name; Groups := id_groups; Flags := id_flags |}.

(** ** Permission scopes *)

(** [type PermissionScope string]. *)
Abbreviation PermissionScope := string (only parsing).

Definition PermissionScopeDownload : PermissionScope := "download".
Definition PermissionScopeUpload : PermissionScope := "upload".
Definition PermissionScopeRename : PermissionScope := "rename".
Definition PermissionScopeRenameOwn : PermissionScope := "renameown".
Definition PermissionScopeDelete : PermissionScope := "delete".
Definition PermissionScopeDeleteOwn : PermissionScope := "deleteown".
Definition PermissionScopeResume : PermissionScope := "resume".
Definition PermissionScopeResumeOwn : PermissionScope := "resumeown".
Definition PermissionScopeMakeDir : PermissionScope := "makedir".
Definition PermissionScopeList : PermissionScope := "list".
Definition PermissionScopeHideUser : PermissionScope := "hideuser".
Definition PermissionScopeHideGroup : PermissionScope := "hidegroup".

Definition StringToPermissionScope : gmap string PermissionScope :=
  list_to_map
    [ (PermissionScopeDownload, PermissionScopeDownload);
      (PermissionScopeUpload, PermissionScopeUpload);
      (PermissionScopeRename, PermissionScopeRename);
      (PermissionScopeRenameOwn, PermissionScopeRenameOwn);
      (PermissionScopeDelete, PermissionScopeDelete);
      (PermissionScopeDeleteOwn, PermissionScopeDeleteOwn);
      (PermissionScopeResume, PermissionScopeResume);
      (PermissionScopeResumeOwn, PermissionScopeResumeOwn);
      (PermissionScopeMakeDir, PermissionScopeMakeDir);
      (PermissionScopeList, PermissionScopeList);
      (PermissionScopeHideUser, PermissionScopeHideUser);
      (PermissionScopeHideGroup, PermissionScopeHideGroup) ].

(** ** Rules and permissions

    The file that declares [Rule], [NewRule], [Permissions],
    [NewPermissions] and [Permissions.Allowed] is not among the sources;
    permissions_test.go uses them.  They are modelled from the
    specification (sections 4.2 and 4.3). *)

(** Modelled from the spec: the struct [Rule], whose declaration is
    missing; the fields and their order are those of the literals of
    permissions_test.go: path, scope, acl. *)
Record Rule : Type := mkRule {
  path : string;
  scope : PermissionScope;
  acl : ACL
}.

(** Modelled from the spec: [NewRule], missing from the sources.  A line has
    at least three white space separated fields; the first is looked up in
    the scope table, the second is the path as it is, the others are joined
    again and given to [NewFromString], whose error is returned as it is. *)
Definition NewRule `{LowerCaseTable} (line : string) : error + Rule :=
  match Fields line with
  | f1 :: f2 :: ((_ :: _) as rest) =>
      match StringToPermissionScope !! f1 with
      | None => inl (errors_New ("unknown permission scope '" +:+ f1 +:+ "'"))
      | Some sc =>
          match NewFromString (Join rest " ") with
          | inl e => inl e
          | inr a => inr (mkRule f2 sc a)
          end
      end
  | _ => inl (errors_New "rule requires minimum of 3 fields")
  end.

(** Modelled from the spec: the type [Permissions], missing from the
    sources: a mapping from a scope to the (path, ACL) entries of that
    scope, in the order of their insertion. *)
Abbreviation Permissions := (gmap string (list (string * ACL))) (only parsing).

(** The entries of a scope; none when the scope was never inserted. *)
Definition scope_rules (p : Permissions) (sc : PermissionScope) : list (string * ACL) :=
  default [] (p !! sc).

Definition already_exists (r : Rule) : error :=
  errors_New ("path '" +:+ path r +:+ "' for scope '" +:+ scope r +:+ "' already exists").

(** Modelled from the spec: the insertion of one rule by [NewPermissions]:
    a rule whose path is already there for its scope is refused. *)
Definition insert_rule (r : Rule) (p : Permissions) : error + Permissions :=
  if has_loop (scope_rules p (scope r)).*1 (path r) then inl (already_exists r)
  else inr (<[scope r := scope_rules p (scope r) ++ [(path r, acl r)]]> p).

Fixpoint insert_rules (rules : list Rule) (p : Permissions) : error + Permissions :=
  match rules with
  | [] => inr p
  | r :: rest =>
      match insert_rule r p with
      | inl e => inl e
      | inr p' => insert_rules rest p'
      end
  end.

(** Modelled from the spec: [NewPermissions], missing from the sources. *)
Definition NewPermissions (rules : list Rule) : error + Permissions :=
  insert_rules rules ∅.

(** The segments of a path: what stands between its slashes. *)
Definition is_slash (c : ascii) : bool := Ascii.eqb c "/".
Definition segments (p : string) : list string := FieldsFunc is_slash p.

Fixpoint is_prefix (l1 l2 : list string) : bool :=
  match l1, l2 with
  | [], _ => true
  | x :: l1', y :: l2' => String.eqb x y && is_prefix l1' l2'
  | _ :: _, [] => false
  end.

(** The rule path [rp] is the queried path [qp] or one of its ancestors,
    segment by segment. *)
Definition covers (rp qp : string) : bool := is_prefix (segments rp) (segments qp).

(** The entry with the longest path among those that cover [qp], the
    first of them when several are as long; [best] is the choice so far. *)
Fixpoint longest_cover (qp : string) (rs : list (string * ACL))
    (best : option (string * ACL)) : option (string * ACL) :=
  match rs with
  | [] => best
  | r :: rest =>
      if covers r.1 qp then
        match best with
        | Some b =>
            if (String.length b.1 <? String.length r.1)%nat
            then longest_cover qp rest (Some r)
            else longest_cover qp rest best
        | None => longest_cover qp rest (Some r)
        end
      else longest_cover qp rest best
  end.

(** Modelled from the spec: [Permissions.Allowed], missing from the
    sources.  No entry for the scope: false.  No entry covers the path:
    false.  Otherwise the ACL of the longest covering entry decides. *)
Definition Permissions_Allowed `{LowerCaseTable} `{User U} (p : Permissions)
    (sc : PermissionScope) (qp : string) (u : U) : bool :=
  match scope_rules p sc with
  | [] => false
  | rs =>
      match longest_cover qp rs None with
      | None => false
      | Some r => ACL_Allowed r.2 u
      end
  end.

(** ** authenticator.go: the credential store *)

(** The struct [User] of the store ([u.Name], [u.Password]); its declaration
    is not among the sources.  It is named [StoredUser] here, [User] being
    the interface of acl.go. *)
Record StoredUser : Type := mkStoredUser {
  user_Name : string;
  user_Password : string
}.

(** Modelled from the spec: [User.Key], missing from the sources: the kind
    and the name, ["user:" + name]. *)
Definition user_Key (u : StoredUser) : string := "user:" +:+ user_Name u.

(** The badger database as the authenticator sees it: the key/value
    entries, and [fault], the error with which every transaction of a
    broken store ends ([None]: the store works).  A working store takes
    every key and value: the size limits of badger are not part of the
    embedding. *)
Record DB : Type := mkDB {
  kv : gmap string string;
  fault : option error
}.

(** [bcrypt.DefaultCost]. *)
Definition bcrypt_DefaultCost : nat := 10.

Section Authenticator.

(** The libraries the authenticator calls.  [bcrypt.GenerateFromPassword]
    draws a random salt: the salt is its first argument here.
    [bcrypt.CompareHashAndPassword] returns [nil] ([None]) when the
    password verifies.  [Decode] fills the entry it is given. *)
Variable bcrypt_GenerateFromPassword : string -> string -> nat -> error + string.
Variable bcrypt_CompareHashAndPassword : string -> string -> option error.
Variable msgpack_Encode : StoredUser -> error + string.
Variable msgpack_Decode : string -> StoredUser -> error + StoredUser.

(** [encodeAndUpdate]: one read-write transaction that encodes the entry
    and sets its key. *)
Definition encodeAndUpdate (db : DB) (e : StoredUser) : DB * option error :=
  match fault db with
  | Some err => (db, Some err)
  | None =>
      match msgpack_Encode e with
      | inl err => (db, Some err)
      | inr b => (mkDB (<[user_Key e := b]> (kv db)) (fault db), None)
      end
  end.

(** [getAndDecode]: one read-only transaction that gets the key and
    decodes its value into [e]. *)
Definition getAndDecode (db : DB) (key : string) (e : StoredUser) : error + StoredUser :=
  match fault db with
  | Some err => inl err
  | None =>
      match kv db !! key with
      | None => inl badger_ErrKeyNotFound
      | Some val => msgpack_Decode val e
      end
  end.

(** [GetUser]. *)
Definition GetUser (db : DB) (name : string) : error + StoredUser :=
  let u := mkStoredUser name "" in
  match getAndDecode db (user_Key u) u with
  | inl err =>
      if decide (err = badger_ErrKeyNotFound) then inl ErrUserDoesntExist
      else inl err
  | inr u' => inr u'
  end.

(** [AddUser]; [salt] is the randomness bcrypt draws. *)
Definition AddUser (salt : string) (db : DB) (name pass : string)
    : DB * (error + StoredUser) :=
  match GetUser db name with
  | inr _ => (db, inl ErrUserExists)
  | inl err =>
      if decide (err = ErrUserDoesntExist) then
        match bcrypt_GenerateFromPassword salt pass bcrypt_DefaultCost with
        | inl err' => (db, inl err')
        | inr hashed =>
            let u := mkStoredUser name hashed in
            match encodeAndUpdate db u with
            | (db', Some err') => (db', inl err')
            | (db', None) => (db', inr u)
            end
        end
      else (db, inl err)
  end.

(** [CheckPassword]. *)
Definition CheckPassword (db : DB) (name pass : string) : bool :=
  match GetUser db name with
  | inl _ => false
  | inr u =>
      match bcrypt_CompareHashAndPassword (user_Password u) pass with
      | Some _ => false
      | None => true
      end
  end.

(** [ChangePassword]. *)
Definition ChangePassword (db : DB) (user pass : string) : DB * option error :=
  (db, Some (errors_New "stub")).

End Authenticator.

(** A small instance of the libraries, to run the authenticator on.  Two
    byte strings are packed as the length of the first in unary, a bar, and
    the two strings; the hash packs the salt and the password, the encoding
    packs the name and the password hash. *)
Fixpoint unary (n : nat) : string :=
  match n with
  | O => "|"
  | S n' => String "a" (unary n')
  end.

Definition toy_pair (a b : string) : string :=
  unary (String.length a) +:+ a +:+ b.

Fixpoint toy_len (s : string) : nat * string :=
  match s with
  | EmptyString => (O, EmptyString)
  | String c r =>
      if Ascii.eqb c "|" then (O, r)
      else let '(n, r') := toy_len r in (S n, r')
  end.

Fixpoint take_drop (n : nat) (s : string) : string * string :=
  match n, s with
  | O, _ => (EmptyString, s)
  | S n', String c r => let '(a, b) := take_drop n' r in (String c a, b)
  | S _, EmptyString => (EmptyString, EmptyString)
  end.

Definition toy_unpair (s : string) : string * string :=
  let '(n, r) := toy_len s in take_drop n r.

Definition toy_generate (salt pass : string) (cost : nat) : error + string :=
  inr (toy_pair salt pass).

Definition toy_compare (h pass : string) : option error :=
  if String.eqb (toy_unpair h).2 pass then None
  else Some (errors_New "crypto/bcrypt: hashedPassword is not the hash of the given password").

Definition toy_encode (u : StoredUser) : error + string :=
  inr (toy_pair (user_Name u) (user_Password u)).

Definition toy_decode (b : string) (e : StoredUser) : error + StoredUser :=
  inr (mkStoredUser (toy_unpair b).1 (toy_unpair b).2).

Definition empty_db : DB := mkDB ∅ None.

(** A second instance of bcrypt, with what the library says of long
    passwords: bcrypt reads the first 72 bytes of a password and no more. *)
Definition bcrypt72_generate (salt pass : string) (cost : nat) : error + string :=
  inr (toy_pair salt (take_bytes 72 pass)).

Definition bcrypt72_compare (h pass : string) : option error :=
  if String.eqb (toy_unpair h).2 (take_bytes 72 pass) then None
  else Some (errors_New "crypto/bcrypt: hashedPassword is not the hash of the given password").

(** The password made of [n] bytes [x]. *)
Fixpoint xs (n : nat) : string :=
  match n with
  | O => EmptyString
  | S n' => String "x" (xs n')
  end.

(** The store after [AddUser("alice", xs 72)] on the empty store, with the
    bcrypt of the 72 bytes. *)
Definition long_db : DB :=
  (AddUser bcrypt72_generate toy_encode toy_decode "salt" empty_db "alice" (xs 72)).1.

(** * Vocabulary of the properties *)

(** The predicates of the specification: the name is in a predicate set,
    and a sequence of the identity meets a predicate set, both up to the
    case of the identity's strings. *)
Definition named_in `{LowerCaseTable} (e : string) (s : list string) : Prop := ToLower e ∈ s.
Definition meets `{LowerCaseTable} (es s : list string) : Prop := Exists (fun e => named_in e s) es.

#[global] Instance named_in_dec `{LowerCaseTable} e s : Decision (named_in e s).
Proof. unfold named_in. apply _. Defined.
#[global] Instance meets_dec `{LowerCaseTable} es s : Decision (meets es s).
Proof. unfold meets. apply _. Defined.

(** The three specific predicates of one collection, on one identity. *)
Definition user_match `{LowerCaseTable} `{User U} (c : collection) (u : U) : Prop :=
  named_in (Name u) (users c).
Definition group_match `{LowerCaseTable} `{User U} (c : collection) (u : U) : Prop :=
  meets (Groups u) (groups c).
Definition flag_match `{LowerCaseTable} `{User U} (c : collection) (u : U) : Prop :=
  meets (Flags u) (flags c).
Definition specific_match `{LowerCaseTable} `{User U} (c : collection) (u : U) : Prop :=
  user_match c u \/ group_match c u \/ flag_match c u.

(** The order of the specification, step by step. *)
Definition Allowed_by_precedence `{LowerCaseTable} `{User U} (a : ACL) (u : U) : bool :=
  if decide (user_match (blocked a) u) then false
  else if decide (group_match (blocked a) u) then false
  else if decide (flag_match (blocked a) u) then false
  else if decide (user_match (allowed a) u) then true
  else if decide (group_match (allowed a) u) then true
  else if decide (flag_match (allowed a) u) then true
  else if all (blocked a) then false
  else if all (allowed a) then true
  else false.

(** Facts on single bytes, by running through the 256 of them. *)
Ltac each_byte c :=
  destruct c as [[] [] [] [] [] [] [] []]; vm_compute; try reflexivity;
  try discriminate; try tauto.

(** A string made of white space only: every rune of it is a white space
    of [unicode.IsSpace]. *)
Definition all_space (s : string) : bool :=
  forallb (fun p => IsSpace p.1) (range_string 0 s).

(** The bytes the runes of a [range] loop were read from, one after the
    other. *)
Fixpoint chunks (rs : list (N * string)) : string :=
  match rs with
  | [] => EmptyString
  | (_, bytes) :: rest => bytes +:+ chunks rest
  end.

(** The runes of a string of ASCII bytes: its bytes. *)
Fixpoint bytes_as_runes (s : string) : list (N * string) :=
  match s with
  | EmptyString => []
  | String c r => (byte_of c, String c EmptyString) :: bytes_as_runes r
  end.

(** The collection a term is written to. *)
Definition sel (is_blocked : bool) (a : ACL) : collection :=
  if is_blocked then blocked a else allowed a.

(** What one turn of the loop can do to the ACL. *)
Inductive edit : (collection -> collection) -> Prop :=
  | edit_all : edit set_all
  | edit_user r : edit (append_users r)
  | edit_group r : edit (append_groups r).

Definition no_flags (a : ACL) : Prop :=
  flags (allowed a) = [] /\ flags (blocked a) = [].

(** A term without the prefix of a user or of a group, and not the star. *)
Definition unprefixed (t : string) : Prop :=
  match t with
  | EmptyString => False
  | String c r => c <> "-"%char /\ c <> "="%char /\ t <> "*"
  end.

(** Two strings that differ in the case of their letters only. *)
Definition same_letters `{LowerCaseTable} (x y : string) : Prop := ToLower x = ToLower y.

(** The scope and the path of a rule. *)
Definition rule_key (r : Rule) : string * string := (scope r, path r).

(** The entries of [p] are those of the rules [seen] so far. *)
Definition holds_keys (seen : list Rule) (p : Permissions) : Prop :=
  forall sc pa, pa ∈ (scope_rules p sc).*1 <-> (sc, pa) ∈ rule_key <$> seen.

(** The rule path [rp] is the queried path [qp] or an ancestor of it: its
    segments are the first segments of [qp]. *)
Definition ancestor_or_equal (rp qp : string) : Prop :=
  segments rp `prefix_of` segments qp.

(** The lines of a test: each is parsed by [NewRule], the rules are given
    to [NewPermissions], and the permissions are asked. *)
Fixpoint rules_of_lines `{LowerCaseTable} (lines : list string) : error + list Rule :=
  match lines with
  | [] => inr []
  | l :: rest =>
      match NewRule l with
      | inl e => inl e
      | inr r =>
          match rules_of_lines rest with
          | inl e => inl e
          | inr rs => inr (r :: rs)
          end
      end
  end.

Definition check_lines `{LowerCaseTable} (lines : list string) (sc : PermissionScope)
    (qp : string) (u : Identity) : error + bool :=
  match rules_of_lines lines with
  | inl e => inl e
  | inr rs =>
      match NewPermissions rs with
      | inl e => inl e
      | inr p => inr (Permissions_Allowed p sc qp u)
      end
  end.

(** The store after [AddUser("alice", "pw")] on the empty store. *)
Definition alice_db : DB :=
  (AddUser toy_generate toy_encode toy_decode "salt" empty_db "alice" "pw").1.

(** ** helpers_test.go: the comparisons of the tests *)

(** The inner loop of [compareSlices]: is [i] an element of [b]? *)
Fixpoint compareSlices_match (i : string) (b : list string) : bool :=
  match b with
  | [] => false
  | j :: b' => if String.eqb i j then true else compareSlices_match i b'
  end.

(** The outer loop of [compareSlices]. *)
Fixpoint compareSlices_loop (a b : list string) : bool :=
  match a with
  | [] => true
  | i :: a' => if compareSlices_match i b then compareSlices_loop a' b else false
  end.

(** [compareSlices]. *)
Definition compareSlices (a b : list string) : bool :=
  if negb (length a =? length b)%nat then false
  else compareSlices_loop a b.

(** One collection has every predicate of another. *)
Definition collection_le (c c' : collection) : Prop :=
  (all c = true -> all c' = true)
  /\ users c ⊆ users c' /\ groups c ⊆ groups c' /\ flags c ⊆ flags c'.

(** ** The grammar of the terms of an ACL

    A field is a term, or [!] and a term; a term is [-] and a name, [=] and
    a name, or a name. *)

(** [f] without its prefix [p], when it has it. *)
Fixpoint strip_prefix (p f : string) : option string :=
  match p, f with
  | EmptyString, _ => Some f
  | String a p', String b f' => if Ascii.eqb b a then strip_prefix p' f' else None
  | String _ _, EmptyString => None
  end.

Definition starts_with (c : ascii) (f : string) : bool :=
  match f with
  | String c' _ => Ascii.eqb c' c
  | EmptyString => false
  end.

(** The name behind the prefix [p]: not empty, and not the star. *)
Definition named (p t : string) : option string :=
  match strip_prefix p t with
  | Some r => if String.eqb r "" || String.eqb r "*" then None else Some r
  | None => None
  end.

(** A name with no prefix. *)
Definition bare (t : string) : option string :=
  if String.eqb t "" || String.eqb t "*" || starts_with "-" t || starts_with "=" t
  then None else Some t.

(** The user, the group and the star that a term stands for, and the error
    of a term that is a prefix alone. *)
Definition term_user (t : string) : option string := named "-" t.
Definition term_group (t : string) : option string :=
  match named "=" t with
  | Some r => Some r
  | None => bare t
  end.
Definition term_all (t : string) : bool :=
  String.eqb t "*" || String.eqb t "-*" || String.eqb t "=*".
Definition term_bad (t : string) : option error :=
  if String.eqb t "-" then Some (errors_New "expected string after '-'")
  else if String.eqb t "=" then Some (errors_New "expected string after '='")
  else None.

(** The term of a field for the allowed ([b] false) or for the blocked
    ([b] true) collection. *)
Definition field_term (b : bool) (f : string) : option string :=
  if b then strip_prefix "!" f
  else if starts_with "!" f then None else Some f.

Definition field_user (b : bool) (f : string) : option string :=
  field_term b f ≫= term_user.
Definition field_group (b : bool) (f : string) : option string :=
  field_term b f ≫= term_group.
Definition field_all (b : bool) (f : string) : bool :=
  from_option term_all false (field_term b f).

(** The error of a field: a [!] alone, or a prefix alone behind it or not. *)
Definition field_bad (f : string) : option error :=
  if String.eqb f "!" then Some (errors_New "expected string after '!'")
  else match strip_prefix "!" f with
       | Some t => term_bad t
       | None => term_bad f
       end.

(** What a term adds to the collection it is written to. *)
Definition term_effect (t : string) (c : collection) : collection :=
  mkCollection (all c || term_all t)
    (users c ++ option_list (term_user t))
    (groups c ++ option_list (term_group t))
    (flags c).

(** Case analysis on a byte of a field. *)
Ltac by_char c x :=
  destruct (Ascii.eqb_spec c x) as [-> | ?].

Ltac not_chars :=
  repeat match goal with
         | H : ?c <> ?x |- context [Ascii.eqb ?c ?x] =>
             rewrite (proj2 (Ascii.eqb_neq c x) H)
         end.

(** What a field adds to the allowed ([b] false) or to the blocked ([b]
    true) collection. *)
Definition field_effect (b : bool) (f : string) (c : collection) : collection :=
  match field_term b f with
  | Some t => term_effect t c
  | None => c
  end.

(** The prefix of the fields of the blocked collection. *)
Definition bang (b : bool) : string := if b then "!" else "".

(** The two inputs have the same fields, whatever their order and their
    number. *)
Definition same_fields `{LowerCaseTable} (s1 s2 : string) : Prop :=
  forall f, f ∈ Fields (ToLower s1) <-> f ∈ Fields (ToLower s2).

(** The fields [NewFromString] refuses. *)
Definition refused_fields : list string := ["!"; "-"; "!-"; "="; "!="].

(** ** authenticator.go: groups *)

(** The struct [Group] of the store ([g.Name]); its declaration is not
    among the sources. *)
Record Group : Type := mkGroup {
  group_Name : string
}.

(** Modelled from the spec: [Group.Key], missing from the sources: the kind
    and the name, ["group:" + name]. *)
Definition group_Key (g : Group) : string := "group:" +:+ group_Name g.

Section AuthenticatorGroups.

(** The encoder of msgpack on a group. *)
Variable msgpack_EncodeGroup : Group -> error + string.

(** [encodeAndUpdate] on an entry that is a group. *)
Definition encodeAndUpdateGroup (db : DB) (e : Group) : DB * option error :=
  match fault db with
  | Some err => (db, Some err)
  | None =>
      match msgpack_EncodeGroup e with
      | inl err => (db, Some err)
      | inr b => (mkDB (<[group_Key e := b]> (kv db)) (fault db), None)
      end
  end.

(** [GetGroup]. *)
Definition GetGroup (db : DB) (name : string) : error + Group :=
  inl (errors_New "stub").

(** [AddGroup]. *)
Definition AddGroup (db : DB) (name : string) : DB * (error + Group) :=
  match GetGroup db name with
  | inr _ => (db, inl ErrGroupExists)
  | inl err =>
      if decide (err = ErrGroupDoesntExist) then
        let g := mkGroup name in
        match encodeAndUpdateGroup db g with
        | (db', Some err') => (db', inl err')
        | (db', None) => (db', inr g)
        end
      else (db, inl err)
  end.

End AuthenticatorGroups.

(** The store after a sequence of calls of [AddGroup]. *)
Definition AddGroups (enc : Group -> error + string) (db : DB) (names : list string) : DB :=
  foldl (fun d n => (AddGroup enc d n).1) db names.

(** The store after [AddUser("bob", "pw2")] on the store of alice. *)
Definition alice_bob_db : DB :=
  (AddUser toy_generate toy_encode toy_decode "pepper" alice_db "bob" "pw2").1.

(** ** ftp/cmd/pass.go: the command PASS *)

(** What pass.go uses of package [cmd], whose declarations are not among the
    sources: the interface [Session] (on a session of type [Sess], a method
    that changes the session returns the new one), the session states, the
    statuses of the replies, and [s.Auth().CheckPassword].  [State] reads
    what [SetState] sets. *)
Class Session (Sess St Status : Type) : Type := {
  SessionStateAuth : St;
  SessionStateLoggedIn : St;
  StatusSyntaxError : Status;
  StatusBadCommandSequence : Status;
  StatusNotLoggedIn : Status;
  StatusUserLoggedIn : Status;
  ReplyStatus : Sess -> Status -> Sess * option error;
  ReplyWithArgs : Sess -> Status -> string -> Sess * option error;
  Login : Sess -> string;
  SetLogin : Sess -> string -> Sess;
  State : Sess -> St;
  SetState : Sess -> St -> Sess;
  Auth_CheckPassword : Sess -> string -> string -> bool
}.

(** [commandPASS.RequireState]. *)
Definition commandPASS_RequireState {Sess St Status : Type}
    {HS : Session Sess St Status} : St := SessionStateAuth.

(** [commandPASS.Execute]. *)
Definition commandPASS_Execute {Sess St Status : Type}
    {HS : Session Sess St Status} (s : Sess) (params : list string)
    : Sess * option error :=
  match params with
  | [p] =>
      if (String.length (Login s) =? 0)%nat then ReplyStatus s StatusBadCommandSequence
      else if negb (Auth_CheckPassword s (Login s) p) then
        ReplyStatus (SetLogin s "") StatusNotLoggedIn
      else
        match ReplyWithArgs s StatusUserLoggedIn ("Welcome back " +:+ Login s +:+ "!") with
        | (s1, Some err) => (SetLogin s1 "", Some err)
        | (s1, None) => (SetState s1 SessionStateLoggedIn, None)
        end
  | _ => ReplyStatus s StatusSyntaxError
  end.

(** What a session is expected to do: the login and the state are what was
    set last, and a reply changes neither. *)
Class SessionLaws {Sess St Status : Type} (HS : Session Sess St Status) : Prop := {
  Login_SetLogin : forall s l, Login (SetLogin s l) = l;
  State_SetLogin : forall s l, State (SetLogin s l) = State s;
  Login_SetState : forall s st, Login (SetState s st) = Login s;
  State_SetState : forall s st, State (SetState s st) = st;
  Login_ReplyStatus : forall s st, Login (ReplyStatus s st).1 = Login s;
  State_ReplyStatus : forall s st, State (ReplyStatus s st).1 = State s;
  Login_ReplyWithArgs : forall s st m, Login (ReplyWithArgs s st m).1 = Login s;
  State_ReplyWithArgs : forall s st m, State (ReplyWithArgs s st m).1 = State s
}.

(** A session to run the command on: the login, the state (logged in or
    not), the replies sent, and the store of its authenticator. *)
Record toy_session : Type := mkToySession {
  toy_login : string;
  toy_logged_in : bool;
  toy_replies : list (nat * string);
  toy_db : DB
}.

#[global] Instance toy_Session : Session toy_session bool nat := {|
  SessionStateAuth := false;
  SessionStateLoggedIn := true;
  StatusSyntaxError := 501;
  StatusBadCommandSequence := 503;
  StatusNotLoggedIn := 530;
  StatusUserLoggedIn := 230;
  ReplyStatus s st :=
    (mkToySession (toy_login s) (toy_logged_in s) (toy_replies s ++ [(st, "")]) (toy_db s),
     None);
  ReplyWithArgs s st m :=
    (mkToySession (toy_login s) (toy_logged_in s) (toy_replies s ++ [(st, m)]) (toy_db s),
     None);
  Login := toy_login;
  SetLogin s l := mkToySession l (toy_logged_in s) (toy_replies s) (toy_db s);
  State := toy_logged_in;
  SetState s st := mkToySession (toy_login s) st (toy_replies s) (toy_db s);
  Auth_CheckPassword s := CheckPassword toy_compare toy_decode (toy_db s)
|}.

#[global] Instance toy_SessionLaws : SessionLaws toy_Session.
Proof. split; reflexivity. Defined.

(** A session after [USER alice] on the store of alice. *)
Definition alice_session : toy_session := mkToySession "alice" false [] alice_db.

(** * Properties *)

Section WithTable.

(** The table of the lower case of Go's package [unicode]. *)
Context {T : LowerCaseTable}.

Example fields_ex : Fields "  -user   !*	x " = ["-user"; "!*"; "x"].
Proof. reflexivity. Qed.

Example nfs_ex :
  NewFromString "-User !*" =
  inr (mkACL (mkCollection false ["user"] [] []) (mkCollection true [] [] [])).
Proof. reflexivity. Qed.

Example segs_ex : segments "/dir//a/" = ["dir"; "a"] /\ segments "/" = [].
Proof. split; reflexivity. Qed.

Example rule_ex :
  NewRule "download /path/test/dir -user !*" =
  inr (mkRule "/path/test/dir" "download"
         (mkACL (mkCollection false ["user"] [] []) (mkCollection true [] [] []))).
Proof. vm_compute. reflexivity. Qed.

(** ** The decision procedure of an ACL *)

Lemma has_loop_elem (s : list string) (e : string) :
  has_loop s e = true <-> e ∈ s.
Proof.
  induction s as [|x s IH]; simpl.
  - split; [discriminate | intros H; inversion H].
  - destruct (String.eqb_spec x e) as [->|Hne].
    + split; [intros _; left | reflexivity].
    + rewrite IH. split; [intros H; by right |].
      intros H. inversion H; subst; [congruence | assumption].
Qed.

Lemma range_hit_Exists (p : string -> bool) (l : list string) :
  range_hit p l = true <-> Exists (fun x => p x = true) l.
Proof.
  induction l as [|x l IH]; simpl.
  - split; [discriminate | intros H; inversion H].
  - destruct (p x) eqn:Hp.
    + split; [intros _; by left | reflexivity].
    + rewrite IH. split; [intros H; by right |].
      intros H. inversion H; subst; [congruence | assumption].
Qed.

Lemma has_named_in (c : collection) (s : list string) (e : string) :
  has c s e = true <-> named_in e s.
Proof. apply has_loop_elem. Qed.

Lemma range_hit_meets (c : collection) (s es : list string) :
  range_hit (has c s) es = true <-> meets es s.
Proof.
  rewrite range_hit_Exists. unfold meets.
  rewrite !Exists_exists.
  split; intros (e & He & Hm); exists e; (split; [assumption |]);
    [apply (proj1 (has_named_in c s e)) | apply (proj2 (has_named_in c s e))];
    assumption.
Qed.

Lemma hasUser_match `{User U} (c : collection) (u : U) :
  hasUser c (Name u) = bool_decide (user_match c u).
Proof.
  apply eq_true_iff_eq. rewrite bool_decide_eq_true. apply has_named_in.
Qed.

Lemma hasGroup_match `{User U} (c : collection) (u : U) :
  range_hit (hasGroup c) (Groups u) = bool_decide (group_match c u).
Proof.
  apply eq_true_iff_eq. rewrite bool_decide_eq_true. apply range_hit_meets.
Qed.

Lemma hasFlag_match `{User U} (c : collection) (u : U) :
  range_hit (hasFlag c) (Flags u) = bool_decide (flag_match c u).
Proof.
  apply eq_true_iff_eq. rewrite bool_decide_eq_true. apply range_hit_meets.
Qed.

Lemma ACL_Allowed_unfold `{User U} (a : ACL) (u : U) :
  ACL_Allowed a u = Allowed_by_precedence a u.
Proof.
  unfold ACL_Allowed, Allowed_by_precedence.
  rewrite !hasUser_match, !hasGroup_match, !hasFlag_match.
  repeat (case_decide;
          [rewrite bool_decide_eq_true_2 by assumption
          |rewrite bool_decide_eq_false_2 by assumption]; try reflexivity).
Qed.

(** C1. [ACL.Allowed] follows the fixed order: a blocked user, group or
    flag predicate denies; otherwise an allowed user, group or flag
    predicate allows; otherwise [blocked.all] denies; otherwise
    [allowed.all] allows; otherwise the answer is false.  So a blocked
    predicate denies whatever [allowed.all] is, and an allowed predicate
    (no blocked one matching) allows whatever [blocked.all] is. *)
Theorem ACL_Allowed_precedence `{User U} (a : ACL) (u : U) :
  ACL_Allowed a u = Allowed_by_precedence a u
  /\ (specific_match (blocked a) u -> ACL_Allowed a u = false)
  /\ (~ specific_match (blocked a) u -> specific_match (allowed a) u ->
      ACL_Allowed a u = true)
  /\ (~ specific_match (blocked a) u -> ~ specific_match (allowed a) u ->
      ACL_Allowed a u = negb (all (blocked a)) && all (allowed a))
  /\ (~ specific_match (blocked a) u -> ~ specific_match (allowed a) u ->
      all (blocked a) = false -> all (allowed a) = false ->
      ACL_Allowed a u = false).
Proof.
  rewrite ACL_Allowed_unfold. unfold Allowed_by_precedence, specific_match.
  split; [reflexivity |].
  repeat case_decide; repeat split; intros; try reflexivity; try tauto;
    destruct (all (blocked a)), (all (allowed a)); simpl; congruence.
Qed.

(** ** Runes and bytes *)

Lemma append_String (a : ascii) (p r : string) :
  String a p +:+ r = String a (p +:+ r).
Proof. reflexivity. Qed.

Lemma take_drop_bytes (n : nat) (s : string) :
  take_bytes n s +:+ drop_bytes n s = s.
Proof.
  revert s. induction n as [|n IH]; intros [|c r]; simpl; try reflexivity.
  by rewrite append_String, IH.
Qed.

(** The width of a decoded rune is at least one and no more than the bytes
    there are. *)
Lemma DecodeRuneInString_width (c : ascii) (r : string) :
  (1 <= (DecodeRuneInString (String c r)).2 <= S (String.length r))%nat.
Proof.
  unfold DecodeRuneInString.
  repeat match goal with
         | |- context [if ?b then _ else _] => destruct b
         | |- context [match ?s with EmptyString => _ | String _ _ => _ end] =>
             destruct s
         end; simpl; lia.
Qed.

(** The runes of a [range] loop cover the string, byte for byte. *)
Lemma range_string_chunks (s : string) (skip : nat) :
  (skip <= String.length s)%nat ->
  chunks (range_string skip s) = drop_bytes skip s.
Proof.
  revert skip. induction s as [|c r IH]; intros skip Hskip.
  - by destruct skip.
  - destruct skip as [|k].
    + cbn [range_string].
      pose proof (DecodeRuneInString_width c r) as Hw.
      destruct (DecodeRuneInString (String c r)) as [x w]. cbn [snd] in Hw.
      cbn [chunks]. rewrite IH by lia.
      destruct w as [|w]; [lia |]. cbn [take_bytes drop_bytes].
      replace (S w - 1)%nat with w by lia.
      by rewrite append_String, take_drop_bytes.
    + cbn [range_string drop_bytes]. apply IH. simpl in Hskip. lia.
Qed.

Lemma range_string_whole (s : string) : chunks (range_string 0 s) = s.
Proof. by rewrite range_string_chunks by lia. Qed.

(** [strings.Map] keeps a string whose runes the mapping keeps and that has
    no byte read as [RuneError]. *)
Lemma Map_loop_fixed (mapping : N -> N) (rs : list (N * string)) :
  Forall (fun p => mapping p.1 = p.1 /\ p.1 <> RuneError) rs ->
  Map_loop mapping rs = chunks rs.
Proof.
  induction 1 as [|[c bytes] rs [Hm Hne] _ IH]; [reflexivity |].
  cbn [Map_loop chunks]. simpl in Hm, Hne. rewrite Hm, N.eqb_refl.
  apply N.eqb_neq in Hne. rewrite Hne. simpl. by rewrite IH.
Qed.

Lemma EncodeRune_not_empty (r : N) : EncodeRune r <> EmptyString.
Proof.
  unfold EncodeRune.
  repeat match goal with
         | |- context [if ?b then _ else _] => destruct b
         end; discriminate.
Qed.

Lemma append_not_empty (a b : string) : a <> EmptyString -> a +:+ b <> EmptyString.
Proof. destruct a; [congruence | discriminate]. Qed.

Lemma Map_not_empty (mapping : N -> N) (s : string) :
  s <> EmptyString -> Map mapping s <> EmptyString.
Proof.
  destruct s as [|c r]; [congruence |]. intros _. unfold Map.
  cbn [range_string].
  pose proof (DecodeRuneInString_width c r) as Hw.
  destruct (DecodeRuneInString (String c r)) as [x w]. cbn [snd] in Hw.
  cbn [Map_loop]. destruct (_ && _).
  - apply append_not_empty. destruct w; [lia | discriminate].
  - apply append_not_empty, EncodeRune_not_empty.
Qed.

(** Case folding never empties a string. *)
Lemma ToLower_empty (s : string) : ToLower s = EmptyString <-> s = EmptyString.
Proof.
  split; [|by intros ->].
  unfold ToLower. destruct (isASCII s).
  - destruct (hasUpper s); [|done]. by destruct s.
  - intros Hm. destruct s as [|c r]; [reflexivity |].
    by apply Map_not_empty in Hm.
Qed.

(** On a string of ASCII bytes the runes are the bytes. *)
Lemma range_string_ascii (s : string) :
  isASCII s = true -> range_string 0 s = bytes_as_runes s.
Proof.
  induction s as [|c r IH]; [reflexivity |].
  cbn [isASCII]. intros [Hc Hr]%andb_true_iff.
  cbn [range_string bytes_as_runes DecodeRuneInString].
  unfold RuneSelf in Hc. rewrite Hc. cbn [take_bytes]. simpl.
  rewrite IH by assumption. by destruct r.
Qed.

Lemma IsSpace_ascii (c : ascii) :
  (byte_of c <? RuneSelf)%N = true -> IsSpace (byte_of c) = asciiSpace c.
Proof. each_byte c. Qed.

Lemma asciiSpace_not_upper (c : ascii) :
  asciiSpace c = true -> ((0x41 <=? byte_of c) && (byte_of c <=? 0x5A))%N = false.
Proof. each_byte c. Qed.

(** ** White space *)

Lemma fields_of_runes_all_space (rs : list (N * string)) :
  forallb (fun p => IsSpace p.1) rs = true -> fields_of_runes IsSpace rs = [].
Proof.
  induction rs as [|[c bytes] rs IH]; [reflexivity |].
  cbn [forallb fields_of_runes fst]. intros [Hc Hr]%andb_true_iff.
  rewrite Hc. auto.
Qed.

Lemma ascii_all_space (s : string) :
  isASCII s = true ->
  forallb (fun p => IsSpace p.1) (bytes_as_runes s) = true ->
  FieldsFunc asciiSpace s = [] /\ hasUpper s = false.
Proof.
  induction s as [|c r IH]; [by split |].
  cbn [isASCII bytes_as_runes forallb fst].
  intros [Hc Hr]%andb_true_iff [Hs Hrest]%andb_true_iff.
  rewrite IsSpace_ascii in Hs by assumption.
  destruct (IH Hr Hrest) as [Hf Hu].
  cbn [FieldsFunc hasUpper]. rewrite Hs, (asciiSpace_not_upper c Hs), Hf, Hu.
  by split.
Qed.

(** A string of white space has no field. *)
Lemma Fields_all_space (s : string) : all_space s = true -> Fields s = [].
Proof.
  unfold all_space, Fields. intros Hsp. destruct (isASCII s) eqn:Ha.
  - rewrite range_string_ascii in Hsp by assumption.
    by destruct (ascii_all_space s Ha Hsp).
  - by apply fields_of_runes_all_space.
Qed.

Lemma IsSpace_not_RuneError : IsSpace RuneError = false.
Proof. reflexivity. Qed.

(** Case folding keeps a string of white space, when the lower case of a
    white space is the white space. *)
Lemma ToLower_all_space (s : string) :
  (forall r, IsSpace r = true -> unicode_ToLower r = r) ->
  all_space s = true -> ToLower s = s.
Proof.
  unfold all_space, ToLower. intros Hfix Hsp. destruct (isASCII s) eqn:Ha.
  - rewrite range_string_ascii in Hsp by assumption.
    destruct (ascii_all_space s Ha Hsp) as [_ ->]. reflexivity.
  - unfold Map. rewrite Map_loop_fixed; [apply range_string_whole |].
    apply Forall_forall. intros p Hp%list_elem_of_In.
    rewrite forallb_forall in Hsp. specialize (Hsp p Hp).
    split; [by apply Hfix |]. intros Heq. rewrite Heq in Hsp. discriminate.
Qed.

(** ** The parser of an ACL *)

Lemma parse_term_inr (b : bool) (c : ascii) (r : string) (a a' : ACL) :
  parse_term b c r a = inr a' ->
  exists g, edit g /\ a' = through b g a.
Proof.
  unfold parse_term. intros Hp.
  destruct (Ascii.eqb c "-"); [|destruct (Ascii.eqb c "=")].
  - destruct r as [|c' r']; [discriminate |].
    destruct (is_star _); inversion Hp; subst; eexists; split;
      try reflexivity; constructor.
  - destruct r as [|c' r']; [discriminate |].
    destruct (is_star _); inversion Hp; subst; eexists; split;
      try reflexivity; constructor.
  - destruct (is_star _); inversion Hp; subst; eexists; split;
      try reflexivity; constructor.
Qed.

Lemma parse_field_inr (f : string) (a a' : ACL) :
  parse_field f a = inr a' ->
  a' = a \/ exists b g, edit g /\ a' = through b g a.
Proof.
  unfold parse_field. destruct f as [|c0 r0]; [intros [= <-]; by left |].
  intros Hp. right. destruct (Ascii.eqb c0 "!").
  - destruct r0 as [|c1 r1]; [discriminate |].
    apply parse_term_inr in Hp as (g & Hg & ->). by exists true, g.
  - apply parse_term_inr in Hp as (g & Hg & ->). by exists false, g.
Qed.

(** An invariant of the ACL that every edit keeps holds after the loop. *)
Lemma parse_fields_invariant (P : ACL -> Prop) (fs : list string) :
  (forall b g a, edit g -> P a -> P (through b g a)) ->
  forall a a', P a -> parse_fields fs a = inr a' -> P a'.
Proof.
  induction fs as [|f fs IH]; intros Hstep a a' Ha; simpl.
  - by intros [= <-].
  - destruct (parse_field f a) as [e|a1] eqn:Hf; [discriminate |].
    apply IH; [assumption |].
    apply parse_field_inr in Hf as [-> | (b & g & Hg & ->)]; [assumption |].
    by apply Hstep.
Qed.

Lemma NewFromString_fields (s : string) (a : ACL) :
  NewFromString s = inr a -> parse_fields (Fields (ToLower s)) ACL_zero = inr a.
Proof. destruct s; [discriminate | auto]. Qed.

Lemma NewFromString_no_flags (s : string) (a : ACL) :
  NewFromString s = inr a -> no_flags a.
Proof.
  intros Hs%NewFromString_fields.
  eapply (parse_fields_invariant no_flags); [| |exact Hs]; [|by split].
  intros b g a0 Hg [Ha Hb]. destruct Hg, b; by split.
Qed.

(** Groups are only ever added. *)
Lemma parse_fields_groups_grow (fs : list string) (a a' : ACL) (b : bool) (x : string) :
  parse_fields fs a = inr a' -> x ∈ groups (sel b a) -> x ∈ groups (sel b a').
Proof.
  intros Hp Hx.
  eapply (parse_fields_invariant (fun a0 => x ∈ groups (sel b a0))); [| |exact Hp];
    [|assumption].
  intros b' g a0 Hg H0.
  destruct Hg, b', b; simpl in *; try assumption; apply elem_of_app; by left.
Qed.

Lemma not_named_in_nil (e : string) : ~ named_in e [].
Proof. unfold named_in. apply not_elem_of_nil. Qed.

Lemma not_meets_nil (es : list string) : ~ meets es [].
Proof.
  unfold meets. rewrite Exists_exists. intros (e & _ & He).
  by apply not_named_in_nil in He.
Qed.

Lemma ACL_zero_denies `{User U} (u : U) : ACL_Allowed ACL_zero u = false.
Proof.
  rewrite ACL_Allowed_unfold. unfold Allowed_by_precedence.
  unfold user_match, group_match, flag_match. simpl.
  repeat case_decide; try reflexivity; exfalso;
    first [eapply not_named_in_nil; eassumption
          |eapply not_meets_nil; eassumption].
Qed.

(** C10. An input that is not empty and is made of white space only is
    accepted (the empty input is refused with "no input string given"): the
    ACL has no predicate and no [all] flag, and allows nobody.  White space
    is that of [unicode.IsSpace]; the lower case of a white space is the
    white space itself, as it is in the table of Unicode. *)
Theorem NewFromString_white_space (s : string) :
  (forall r, IsSpace r = true -> unicode_ToLower r = r) ->
  s <> EmptyString -> all_space s = true ->
  NewFromString EmptyString = inl (errors_New "no input string given")
  /\ NewFromString s = inr ACL_zero
  /\ forall (U : Type) (HU : User U) (u : U), ACL_Allowed ACL_zero u = false.
Proof.
  intros Hfix Hne Hsp. split; [reflexivity |]. split.
  - destruct s as [|c s]; [congruence |]. unfold NewFromString.
    rewrite (ToLower_all_space _ Hfix Hsp), (Fields_all_space _ Hsp).
    reflexivity.
  - intros U HU u. apply ACL_zero_denies.
Qed.

Lemma parse_term_unprefixed (b : bool) (c : ascii) (r : string) (a : ACL) :
  unprefixed (String c r) ->
  parse_term b c r a = inr (through b (append_groups (String c r)) a).
Proof.
  intros (Hd & He & Hs). unfold parse_term.
  apply Ascii.eqb_neq in Hd, He. rewrite Hd, He.
  unfold is_star. apply String.eqb_neq in Hs. by rewrite Hs.
Qed.

Lemma through_groups (b : bool) (t : string) (a : ACL) :
  t ∈ groups (sel b (through b (append_groups t) a)).
Proof. destruct b; simpl; apply elem_of_app; right; by left. Qed.

(** The unprefixed terms among the fields the loop reads end up in the
    groups of the collection they select. *)
Lemma parse_fields_unprefixed (fs : list string) (a0 a : ACL) (t : string) :
  parse_fields fs a0 = inr a -> t ∈ fs ->
  (forall c r, t = String c r -> c <> "!"%char -> unprefixed t ->
     t ∈ groups (allowed a))
  /\ (forall t', t = String "!" t' -> unprefixed t' -> t' ∈ groups (blocked a)).
Proof.
  revert a0. induction fs as [|f fs IH]; intros a0 Hp Ht; [by apply elem_of_nil in Ht |].
  simpl in Hp. destruct (parse_field f a0) as [e|a1] eqn:Hf; [discriminate |].
  apply elem_of_cons in Ht as [<- | Ht]; [|by eapply IH].
  split.
  - intros c r -> Hc Hu. unfold parse_field in Hf.
    apply Ascii.eqb_neq in Hc. rewrite Hc in Hf.
    rewrite parse_term_unprefixed in Hf by assumption. injection Hf as <-.
    apply (parse_fields_groups_grow fs _ a false _ Hp).
    apply (through_groups false).
  - intros t' -> Hu. unfold parse_field in Hf. simpl in Hf.
    destruct t' as [|c1 r1]; [destruct Hu |].
    rewrite parse_term_unprefixed in Hf by assumption. injection Hf as <-.
    apply (parse_fields_groups_grow fs _ a true _ Hp).
    apply (through_groups true).
Qed.

Lemma no_flags_range_hit (c : collection) (l : list string) :
  flags c = [] -> range_hit (hasFlag c) l = false.
Proof.
  intros Hc. induction l as [|x l IH]; simpl; [reflexivity |].
  unfold hasFlag at 1. unfold has. by rewrite Hc.
Qed.

(** C6. Of the fields [NewFromString] reads (the white space separated
    fields of the lower-cased input), every one with no [-] and no [=] in
    front (after the [!], if there is one) that is not the star goes to the
    groups of the collection it selects, not to the flags.  No parsed ACL
    has a flag predicate, so the answer of a parsed ACL does not depend on
    the flags of the identity. *)
Theorem NewFromString_unprefixed_is_group (s : string) (a : ACL) :
  NewFromString s = inr a ->
  (forall c r, String c r ∈ Fields (ToLower s) -> c <> "!"%char ->
     unprefixed (String c r) -> String c r ∈ groups (allowed a))
  /\ (forall t, String "!" t ∈ Fields (ToLower s) -> unprefixed t ->
     t ∈ groups (blocked a))
  /\ flags (allowed a) = [] /\ flags (blocked a) = []
  /\ (forall (U V : Type) (HU : User U) (HV : User V) (u : U) (v : V),
       Name u = Name v -> Groups u = Groups v ->
       ACL_Allowed a u = ACL_Allowed a v).
Proof.
  intros Hs. pose proof (NewFromString_no_flags s a Hs) as [Hfa Hfb].
  pose proof (NewFromString_fields s a Hs) as Hp.
  split; [|split; [|split; [assumption|split; [assumption|]]]].
  - intros c r Ht Hc Hu.
    destruct (parse_fields_unprefixed _ _ _ _ Hp Ht) as [H1 _].
    by apply (H1 c r).
  - intros t Ht Hu.
    destruct (parse_fields_unprefixed _ _ _ _ Hp Ht) as [_ H2].
    by apply H2.
  - intros U V HU HV u v Hn Hg. unfold ACL_Allowed.
    rewrite !no_flags_range_hit by assumption. by rewrite Hn, Hg.
Qed.

(** ** Letter case *)

Lemma NewFromString_same_letters (s1 s2 : string) :
  same_letters s1 s2 -> NewFromString s1 = NewFromString s2.
Proof.
  unfold same_letters. intros Hs.
  destruct s1 as [|c1 r1], s2 as [|c2 r2]; [reflexivity | | |].
  - change (ToLower "") with "" in Hs. symmetry in Hs.
    apply (proj1 (ToLower_empty _)) in Hs. discriminate.
  - change (ToLower "") with "" in Hs.
    apply (proj1 (ToLower_empty _)) in Hs. discriminate.
  - unfold NewFromString. by rewrite Hs.
Qed.

Lemma has_same_letters (c : collection) (s : list string) (e1 e2 : string) :
  same_letters e1 e2 -> has c s e1 = has c s e2.
Proof. unfold has, same_letters. by intros ->. Qed.

Lemma range_hit_same_letters (c : collection) (s l1 l2 : list string) :
  Forall2 same_letters l1 l2 ->
  range_hit (has c s) l1 = range_hit (has c s) l2.
Proof.
  induction 1 as [|x y l1 l2 Hxy _ IH]; simpl; [reflexivity |].
  by rewrite (has_same_letters c s x y Hxy), IH.
Qed.

Lemma ACL_Allowed_same_letters `{User U} `{User V} (a : ACL) (u : U) (v : V) :
  same_letters (Name u) (Name v) ->
  Forall2 same_letters (Groups u) (Groups v) ->
  Forall2 same_letters (Flags u) (Flags v) ->
  ACL_Allowed a u = ACL_Allowed a v.
Proof.
  intros Hn Hg Hf. unfold ACL_Allowed, hasUser, hasGroup, hasFlag.
  rewrite !(has_same_letters _ _ _ _ Hn).
  rewrite !(range_hit_same_letters _ _ _ _ Hg).
  by rewrite !(range_hit_same_letters _ _ _ _ Hf).
Qed.


(** ** Prefixed stars *)

(** C3. [NewFromString] does not refuse a star behind the prefix of a user
    or of a group: [-*] and [=*] set the [all] flag of the allowed
    collection, [!-*] and [!=*] that of the blocked one, and no error is
    returned; the line of [TestNewRule] that expects "bad user '*'" gives a
    rule. *)
Theorem NewFromString_prefixed_star_accepted :
  (forall (b : bool) (a : ACL),
     parse_term b "-" "*" a = inr (through b set_all a)
     /\ parse_term b "=" "*" a = inr (through b set_all a))
  /\ NewFromString "-*" = inr (mkACL (mkCollection true [] [] []) collection_zero)
  /\ NewFromString "!-*" = inr (mkACL collection_zero (mkCollection true [] [] []))
  /\ NewFromString "=*" = inr (mkACL (mkCollection true [] [] []) collection_zero)
  /\ NewFromString "!=*" = inr (mkACL collection_zero (mkCollection true [] [] []))
  /\ NewRule "download /path/test !-*" =
       inr (mkRule "/path/test" PermissionScopeDownload
              (mkACL collection_zero (mkCollection true [] [] []))).
Proof.
  split; [intros b a; split; reflexivity |].
  repeat split; vm_compute; reflexivity.
Qed.

(** ** Building the permissions *)

Lemma scope_rules_insert (p : Permissions) (sc sc' : string) (rs : list (string * ACL)) :
  scope_rules (<[sc := rs]> p) sc' = if decide (sc = sc') then rs else scope_rules p sc'.
Proof. unfold scope_rules. rewrite lookup_insert. by case_decide. Qed.

Lemma scope_rules_empty (sc : string) : scope_rules ∅ sc = [].
Proof. unfold scope_rules. by rewrite lookup_empty. Qed.

Lemma holds_keys_empty : holds_keys [] ∅.
Proof.
  intros sc pa. rewrite scope_rules_empty. simpl.
  split; intros Hin; apply elem_of_nil in Hin; destruct Hin.
Qed.

Lemma insert_rule_inr (seen : list Rule) (p p' : Permissions) (r : Rule) :
  holds_keys seen p -> insert_rule r p = inr p' ->
  (rule_key r ∉ (rule_key <$> seen)) /\ holds_keys (seen ++ [r]) p'.
Proof.
  intros Hk. unfold insert_rule.
  destruct (has_loop _ _) eqn:Hh; [discriminate |]. intros [= <-].
  assert (rule_key r ∉ (rule_key <$> seen)) as Hnew.
  { intros Hin. apply (Hk (scope r) (path r)) in Hin.
    apply (proj2 (has_loop_elem _ _)) in Hin. congruence. }
  split; [exact Hnew |].
  intros sc pa. rewrite scope_rules_insert, fmap_app, elem_of_app. simpl.
  rewrite list_elem_of_singleton. case_decide as Hsc.
  - subst sc. rewrite fmap_app, elem_of_app. simpl.
    rewrite list_elem_of_singleton, (Hk (scope r) pa). unfold rule_key.
    split; (intros [Hin|Heq]; [by left | right; simpl in *; congruence]).
  - rewrite (Hk sc pa). unfold rule_key.
    split; [intros Hin; by left | intros [Hin|Heq]; [assumption | congruence]].
Qed.

Lemma insert_rule_inl (seen : list Rule) (p : Permissions) (r : Rule) (e : error) :
  holds_keys seen p -> insert_rule r p = inl e ->
  rule_key r ∈ rule_key <$> seen /\ e = already_exists r.
Proof.
  intros Hk. unfold insert_rule.
  destruct (has_loop _ _) eqn:Hh; [|discriminate]. intros [= <-].
  split; [|reflexivity]. apply (Hk (scope r) (path r)). by apply has_loop_elem.
Qed.

(** The loop of [NewPermissions], started after the rules [seen]: either all
    the keys are distinct and the loop succeeds, or it stops at the first
    rule whose key was seen before. *)
Lemma insert_rules_spec (rest seen : list Rule) (p : Permissions) :
  holds_keys seen p -> NoDup (rule_key <$> seen) ->
  match insert_rules rest p with
  | inr p' => NoDup (rule_key <$> (seen ++ rest)) /\ holds_keys (seen ++ rest) p'
  | inl e =>
      exists l1 r l2, rest = l1 ++ r :: l2
        /\ rule_key r ∈ rule_key <$> (seen ++ l1)
        /\ e = already_exists r
  end.
Proof.
  revert seen p. induction rest as [|r rest IH]; intros seen p Hk Hnd; simpl.
  - by rewrite app_nil_r.
  - destruct (insert_rule r p) as [e|p1] eqn:Hr.
    + apply (insert_rule_inl seen) in Hr as [Hin ->]; [|assumption].
      exists [], r, rest. by rewrite app_nil_r.
    + apply (insert_rule_inr seen) in Hr as [Hnew Hk1]; [|assumption].
      assert (NoDup (rule_key <$> (seen ++ [r]))) as Hnd1.
      { rewrite fmap_app. apply NoDup_app. repeat split; try assumption.
        - intros x Hx [->|H]%elem_of_cons; [done | by apply elem_of_nil in H].
        - apply NoDup_singleton. }
      specialize (IH (seen ++ [r]) p1 Hk1 Hnd1).
      destruct (insert_rules rest p1) as [e|p'].
      * destruct IH as (l1 & r' & l2 & -> & Hin & ->).
        exists (r :: l1), r', l2. rewrite <- app_assoc in Hin. by repeat split.
      * by rewrite <- app_assoc in IH.
Qed.

Lemma Permissions_empty_denies `{User U} (sc qp : string) (u : U) :
  Permissions_Allowed ∅ sc qp u = false.
Proof. unfold Permissions_Allowed. by rewrite scope_rules_empty. Qed.

(** C7. [NewPermissions] fails exactly when two rules of the sequence have
    the same scope and the same path; the error is
    "path '<path>' for scope '<scope>' already exists", with the path and
    the scope of a rule that comes after another one of the same key.  The
    empty sequence gives the empty permissions, which deny everything. *)
Theorem NewPermissions_duplicates (rules : list Rule) :
  ((exists e, NewPermissions rules = inl e) <-> ~ NoDup (rule_key <$> rules))
  /\ (forall e, NewPermissions rules = inl e ->
        exists l1 r l2, rules = l1 ++ r :: l2
          /\ rule_key r ∈ rule_key <$> l1
          /\ Error e =
             "path '" +:+ path r +:+ "' for scope '" +:+ scope r +:+ "' already exists")
  /\ NewPermissions [] = inr ∅
  /\ (forall (U : Type) (HU : User U) (sc qp : string) (u : U),
        Permissions_Allowed ∅ sc qp u = false).
Proof.
  pose proof (insert_rules_spec rules [] ∅ holds_keys_empty (NoDup_nil_2)) as Hspec.
  unfold NewPermissions. simpl in Hspec.
  split; [|split; [|split]].
  - destruct (insert_rules rules ∅) as [e|p].
    + destruct Hspec as (l1 & r & l2 & -> & Hin & _).
      split; [intros _ | intros _; by exists e].
      rewrite fmap_app, NoDup_app. intros (_ & Hdis & _).
      apply (Hdis _ Hin). simpl. by left.
    + destruct Hspec as [Hnd _]. split; [intros [e He]; discriminate | tauto].
  - intros e He. rewrite He in Hspec.
    destruct Hspec as (l1 & r & l2 & -> & Hin & ->). by exists l1, r, l2.
  - reflexivity.
  - intros. apply Permissions_empty_denies.
Qed.

(** ** Looking a path up *)

Lemma is_prefix_prefix_of (l1 l2 : list string) :
  is_prefix l1 l2 = true <-> l1 `prefix_of` l2.
Proof.
  revert l2. induction l1 as [|x l1 IH]; intros l2; simpl.
  - split; [intros _; apply prefix_nil | reflexivity].
  - destruct l2 as [|y l2].
    + split; [discriminate | intros Hp; by apply prefix_nil_not in Hp].
    + rewrite andb_true_iff, IH, String.eqb_eq. split.
      * intros [-> Hp]. by apply prefix_cons.
      * intros Hp. split; [by eapply prefix_cons_inv_1 | by eapply prefix_cons_inv_2].
Qed.

Lemma covers_ancestor (rp qp : string) :
  covers rp qp = true <-> ancestor_or_equal rp qp.
Proof. apply is_prefix_prefix_of. Qed.

(** What [longest_cover] returns, [best] being a covering entry or none. *)
Lemma longest_cover_spec (qp : string) (rs : list (string * ACL))
    (best : option (string * ACL)) :
  (forall b, best = Some b -> covers b.1 qp = true) ->
  match longest_cover qp rs best with
  | None => best = None /\ forall r, r ∈ rs -> covers r.1 qp = false
  | Some r =>
      (best = Some r \/ r ∈ rs)
      /\ covers r.1 qp = true
      /\ (forall r', r' ∈ rs -> covers r'.1 qp = true ->
            String.length r'.1 <= String.length r.1)
      /\ (forall b, best = Some b -> String.length b.1 <= String.length r.1)
  end.
Proof.
  revert best. induction rs as [|r rs IH]; intros best Hbest; simpl.
  - destruct best as [b|].
    + repeat split; [by left | by apply Hbest | | by intros ? [= ->]].
      intros r' Hr'. by apply elem_of_nil in Hr'.
    + split; [reflexivity |]. intros r Hr. by apply elem_of_nil in Hr.
  - destruct (covers r.1 qp) eqn:Hc.
    + assert (forall best',
        (forall b, best' = Some b -> covers b.1 qp = true) ->
        (forall b, best = Some b -> exists b', best' = Some b'
                     /\ String.length b.1 <= String.length b'.1) ->
        (exists b', best' = Some b' /\ String.length r.1 <= String.length b'.1
                    /\ (best = Some b' \/ b' = r)) ->
        match longest_cover qp rs best' with
        | None => best = None /\ forall r0, r0 ∈ r :: rs -> covers r0.1 qp = false
        | Some r0 =>
            (best = Some r0 \/ r0 ∈ r :: rs)
            /\ covers r0.1 qp = true
            /\ (forall r', r' ∈ r :: rs -> covers r'.1 qp = true ->
                  String.length r'.1 <= String.length r0.1)
            /\ (forall b, best = Some b -> String.length b.1 <= String.length r0.1)
        end) as Hstep.
      { intros best' Hb' Hold (b' & -> & Hlen & Hwho).
        specialize (IH (Some b') Hb').
        destruct (longest_cover qp rs (Some b')) as [r0|].
        - destruct IH as (Hin & Hc0 & Hmax & Hge).
          specialize (Hge b' eq_refl). repeat split; try assumption.
          + destruct Hin as [[= <-]|Hin].
            * destruct Hwho as [Hw | ->]; [by left | right; by left].
            * right; by right.
          + intros r' [-> | Hr']%elem_of_cons Hc'; [lia | by apply Hmax].
          + intros b Hb. destruct (Hold b Hb) as (b'' & [= <-] & Hl). lia.
        - destruct IH as [[=] _]. }
      destruct best as [b|].
      * destruct (String.length b.1 <? String.length r.1)%nat eqn:Hlt.
        -- apply Nat.ltb_lt in Hlt. apply Hstep.
           ++ by intros ? [= <-].
           ++ intros ? [= <-]. exists r. split; [reflexivity | lia].
           ++ exists r. repeat split; [lia | by right].
        -- apply Nat.ltb_ge in Hlt. apply Hstep.
           ++ assumption.
           ++ intros ? [= <-]. exists b. split; [reflexivity | lia].
           ++ exists b. repeat split; [lia | by left].
      * apply Hstep.
        -- by intros ? [= <-].
        -- intros ? [=].
        -- exists r. repeat split; [lia | by right].
    + specialize (IH best Hbest).
      destruct (longest_cover qp rs best) as [r0|].
      * destruct IH as (Hin & Hc0 & Hmax & Hge). repeat split; try assumption.
        -- destruct Hin as [Hin|Hin]; [by left | right; by right].
        -- intros r' [-> | Hr']%elem_of_cons Hc'; [congruence | by apply Hmax].
      * destruct IH as [-> Hnone]. split; [reflexivity |].
        intros r0 [-> | Hr0]%elem_of_cons; [assumption | by apply Hnone].
Qed.

(** C2. [Permissions.Allowed] is false for a scope without rules and false
    when no rule path of the scope is the queried path or an ancestor of it
    (by segments); otherwise it is the answer of the ACL of a rule of the
    scope whose path is such an ancestor and is at least as long as that of
    any other such rule.  A rule at [/] decides [/dir/a]; a rule at [/dir]
    goes before one at [/]; a rule at [/some/path] (or at [/di]) does not
    apply to [/dir/a]. *)
Theorem Permissions_Allowed_longest `{User U} (p : Permissions)
    (sc : PermissionScope) (qp : string) (u : U) :
  (scope_rules p sc = [] -> Permissions_Allowed p sc qp u = false)
  /\ ((forall r, r ∈ scope_rules p sc -> ~ ancestor_or_equal r.1 qp) ->
      Permissions_Allowed p sc qp u = false)
  /\ ((exists r, r ∈ scope_rules p sc /\ ancestor_or_equal r.1 qp) ->
      exists r, r ∈ scope_rules p sc
        /\ ancestor_or_equal r.1 qp
        /\ (forall r', r' ∈ scope_rules p sc -> ancestor_or_equal r'.1 qp ->
              String.length r'.1 <= String.length r.1)
        /\ Permissions_Allowed p sc qp u = ACL_Allowed r.2 u)
  /\ (ancestor_or_equal "/" "/dir/a" /\ ancestor_or_equal "/dir" "/dir/a"
      /\ ~ ancestor_or_equal "/some/path" "/dir/a"
      /\ ~ ancestor_or_equal "/di" "/dir/a")
  /\ check_lines ["download / =group !*"] PermissionScopeDownload "/dir/a"
       (mkIdentity "user" ["group"] []) = inr true
  /\ check_lines ["download / =group !*"] PermissionScopeUpload "/dir/a"
       (mkIdentity "user" ["group"] []) = inr false
  /\ check_lines ["download / !*"; "download /dir *"] PermissionScopeDownload "/dir/a"
       (mkIdentity "user" [] []) = inr true
  /\ check_lines ["download /dir !*"; "download / *"] PermissionScopeDownload "/dir/a"
       (mkIdentity "user" [] []) = inr false
  /\ check_lines ["download /some/path =group !*"] PermissionScopeDownload "/dir/a"
       (mkIdentity "user" ["group"] []) = inr false.
Proof.
  assert (forall b : string * ACL, None = Some b -> covers b.1 qp = true) as Hno
    by (intros ? [=]).
  pose proof (longest_cover_spec qp (scope_rules p sc) None Hno) as Hspec.
  unfold Permissions_Allowed.
  split; [|split; [|split; [|split]]].
  - by intros ->.
  - intros Hnone. destruct (scope_rules p sc) as [|r0 rs] eqn:Hrs; [reflexivity |].
    destruct (longest_cover qp (r0 :: rs) None) as [r|]; [|reflexivity].
    destruct Hspec as ([[=]|Hin] & Hc & _).
    apply covers_ancestor in Hc. by apply Hnone in Hin.
  - intros (r1 & Hr1 & Ha1).
    destruct (scope_rules p sc) as [|r0 rs] eqn:Hrs; [by apply elem_of_nil in Hr1 |].
    destruct (longest_cover qp (r0 :: rs) None) as [r|].
    + destruct Hspec as ([[=]|Hin] & Hc & Hmax & _).
      exists r. split; [assumption |]. split; [by apply covers_ancestor |].
      split; [|reflexivity].
      intros r' Hr' Ha'. apply Hmax; [assumption | by apply covers_ancestor].
    + destruct Hspec as [_ Hnone].
      apply covers_ancestor in Ha1. rewrite (Hnone r1 Hr1) in Ha1. discriminate.
  - split; [by apply covers_ancestor |]. split; [by apply covers_ancestor |].
    split; intros Hc%covers_ancestor; discriminate.
  - repeat split; vm_compute; reflexivity.
Qed.

(** ** The credential store *)

Section AuthenticatorProperties.

Variable bcrypt_GenerateFromPassword : string -> string -> nat -> error + string.
Variable bcrypt_CompareHashAndPassword : string -> string -> option error.
Variable msgpack_Encode : StoredUser -> error + string.
Variable msgpack_Decode : string -> StoredUser -> error + StoredUser.

(** What the authenticator expects of the libraries: a password verifies
    against a hash generated from it, and an encoded entry decodes to
    itself. *)
Hypothesis bcrypt_verifies : forall salt pass cost h,
  bcrypt_GenerateFromPassword salt pass cost = inr h ->
  bcrypt_CompareHashAndPassword h pass = None.
Hypothesis msgpack_roundtrip : forall u b e,
  msgpack_Encode u = inr b -> msgpack_Decode b e = inr u.

Local Abbreviation GetUser' := (GetUser msgpack_Decode).
Local Abbreviation AddUser' :=
  (AddUser bcrypt_GenerateFromPassword msgpack_Encode msgpack_Decode).
Local Abbreviation CheckPassword' :=
  (CheckPassword bcrypt_CompareHashAndPassword msgpack_Decode).

(** A successful [AddUser]: the hash was generated, the entry was encoded,
    the store works, and the entry is what [GetUser] finds afterwards. *)
Lemma AddUser_inr (salt : string) (db db' : DB) (name pass : string) (u : StoredUser) :
  AddUser' salt db name pass = (db', inr u) ->
  exists b,
    GetUser' db name = inl ErrUserDoesntExist
    /\ bcrypt_GenerateFromPassword salt pass bcrypt_DefaultCost = inr (user_Password u)
    /\ user_Name u = name
    /\ msgpack_Encode u = inr b
    /\ fault db = None
    /\ db' = mkDB (<["user:" +:+ name := b]> (kv db)) None
    /\ GetUser' db' name = inr u.
Proof.
  unfold AddUser.
  destruct (GetUser' db name) as [err|u0] eqn:Hget; [|intros [= _ ?]; discriminate].
  case_decide as Herr; [subst err | intros [=]].
  destruct (bcrypt_GenerateFromPassword salt pass bcrypt_DefaultCost)
    as [err|h] eqn:Hgen; [intros [=] |].
  unfold encodeAndUpdate. destruct (fault db) as [err|] eqn:Hfault; [intros [=] |].
  destruct (msgpack_Encode (mkStoredUser name h)) as [err|b] eqn:Henc; [intros [=] |].
  intros [= <- <-]. exists b. repeat split; try assumption; try reflexivity.
  unfold GetUser, getAndDecode. simpl.
  change (user_Key (mkStoredUser name h)) with ("user:" +:+ name).
  change (user_Key (mkStoredUser name "")) with ("user:" +:+ name).
  by rewrite lookup_insert_eq, (msgpack_roundtrip _ _ _ Henc).
Qed.


(** C5. [AddUser] on a name that [GetUser] finds fails with
    [ErrUserExists] and leaves the store as it was.  On a name that does
    not exist, when the hash is generated, the entry is encoded and the
    store works, it stores under the key of the name an entry made of the
    name and of the hash bcrypt generated, and returns that entry.  A
    second [AddUser] of the name fails with [ErrUserExists], the entry and
    its password staying those of the first. *)
Theorem AddUser_spec (salt : string) (db : DB) (name pass : string) :
  (forall u, GetUser' db name = inr u ->
     AddUser' salt db name pass = (db, inl ErrUserExists))
  /\ (GetUser' db name = inl ErrUserDoesntExist ->
      forall h b,
        bcrypt_GenerateFromPassword salt pass bcrypt_DefaultCost = inr h ->
        msgpack_Encode (mkStoredUser name h) = inr b ->
        fault db = None ->
        AddUser' salt db name pass =
          (mkDB (<["user:" +:+ name := b]> (kv db)) None, inr (mkStoredUser name h))
        /\ GetUser' (mkDB (<["user:" +:+ name := b]> (kv db)) None) name =
           inr (mkStoredUser name h))
  /\ (forall db1 u, AddUser' salt db name pass = (db1, inr u) ->
        user_Name u = name
        /\ bcrypt_GenerateFromPassword salt pass bcrypt_DefaultCost =
           inr (user_Password u)
        /\ forall salt2 pass2,
             AddUser' salt2 db1 name pass2 = (db1, inl ErrUserExists)
             /\ GetUser' db1 name = inr u
             /\ CheckPassword' db1 name pass = true).
Proof.
  split; [|split].
  - intros u Hu. unfold AddUser. by rewrite Hu.
  - intros Hget h b Hgen Henc Hfault.
    assert (AddUser' salt db name pass =
      (mkDB (<["user:" +:+ name := b]> (kv db)) None, inr (mkStoredUser name h))) as Hadd.
    { unfold AddUser. rewrite Hget. rewrite decide_True by reflexivity.
      rewrite Hgen. unfold encodeAndUpdate. rewrite Hfault, Henc.
      reflexivity. }
    split; [exact Hadd |].
    by apply AddUser_inr in Hadd as (b' & _ & _ & _ & _ & _ & _ & Hg).
  - intros db1 u Hadd.
    pose proof Hadd as (b & _ & Hgen & Hname & _ & _ & _ & Hget)%AddUser_inr.
    split; [exact Hname |]. split; [exact Hgen |].
    intros salt2 pass2. split; [|split; [exact Hget |]].
    + unfold AddUser. by rewrite Hget.
    + unfold CheckPassword. by rewrite Hget, (bcrypt_verifies _ _ _ _ Hgen).
Qed.

End AuthenticatorProperties.

(** The small instance meets what is expected of the libraries. *)
Lemma toy_len_unary (n : nat) (x : string) : toy_len (unary n +:+ x) = (n, x).
Proof. induction n as [|n IH]; simpl; [reflexivity | by rewrite IH]. Qed.

Lemma take_drop_append (a b : string) : take_drop (String.length a) (a +:+ b) = (a, b).
Proof.
  induction a as [|c a IH]; simpl; [by destruct b | by rewrite IH].
Qed.

Lemma toy_unpair_pair (a b : string) : toy_unpair (toy_pair a b) = (a, b).
Proof.
  unfold toy_unpair, toy_pair. rewrite toy_len_unary. apply take_drop_append.
Qed.

Lemma toy_verifies (salt pass : string) (cost : nat) (h : string) :
  toy_generate salt pass cost = inr h -> toy_compare h pass = None.
Proof.
  intros [= <-]. unfold toy_compare. rewrite toy_unpair_pair. simpl.
  by rewrite String.eqb_refl.
Qed.

Lemma toy_roundtrip (u : StoredUser) (b : string) (e : StoredUser) :
  toy_encode u = inr b -> toy_decode b e = inr u.
Proof.
  intros [= <-]. unfold toy_decode. rewrite toy_unpair_pair. by destruct u.
Qed.

(** C9. [ChangePassword] is a stub: it returns the error "stub" for every
    user and leaves the store as it was, so after it the new password of an
    existing user does not check and the old one still does. *)
Theorem ChangePassword_stub :
  (forall db user pass, ChangePassword db user pass = (db, Some (errors_New "stub")))
  /\ GetUser toy_decode alice_db "alice"
       = inr (mkStoredUser "alice" (toy_pair "salt" "pw"))
  /\ ChangePassword alice_db "alice" "new" = (alice_db, Some (errors_New "stub"))
  /\ CheckPassword toy_compare toy_decode
       (ChangePassword alice_db "alice" "new").1 "alice" "new" = false
  /\ CheckPassword toy_compare toy_decode
       (ChangePassword alice_db "alice" "new").1 "alice" "pw" = true.
Proof.
  split; [reflexivity |]. repeat split; vm_compute; reflexivity.
Qed.

(** * Further properties of the code *)

(** ** The decision procedure, continued *)

Lemma named_in_mono (e : string) (s s' : list string) :
  s ⊆ s' -> named_in e s -> named_in e s'.
Proof. unfold named_in. intros Hs He. by apply Hs. Qed.

Lemma meets_mono (es s s' : list string) :
  s ⊆ s' -> meets es s -> meets es s'.
Proof.
  unfold meets. rewrite !Exists_exists. intros Hs (e & He & Hn).
  exists e. split; [assumption | by eapply named_in_mono].
Qed.

Lemma specific_match_mono `{User U} (c c' : collection) (u : U) :
  collection_le c c' -> specific_match c u -> specific_match c' u.
Proof.
  intros (_ & Hu & Hg & Hf) [Hm | [Hm | Hm]].
  - left. by eapply named_in_mono.
  - right; left. by eapply meets_mono.
  - right; right. by eapply meets_mono.
Qed.

Lemma ACL_Allowed_true `{User U} (a : ACL) (u : U) :
  ACL_Allowed a u = true <->
  ~ specific_match (blocked a) u
  /\ (specific_match (allowed a) u \/ (all (blocked a) = false /\ all (allowed a) = true)).
Proof.
  rewrite ACL_Allowed_unfold. unfold Allowed_by_precedence, specific_match.
  repeat case_decide; destruct (all (blocked a)), (all (allowed a));
    split; try discriminate; try reflexivity; intros; try tauto;
    try (exfalso; intuition congruence).
Qed.

Lemma ACL_Allowed_le `{User U} (a a' : ACL) (u : U) :
  collection_le (blocked a) (blocked a') ->
  collection_le (allowed a') (allowed a) ->
  ACL_Allowed a' u = true -> ACL_Allowed a u = true.
Proof.
  intros Hb Ha. rewrite !ACL_Allowed_true. intros [Hnb Hok]. split.
  - intros Hm. apply Hnb. by eapply specific_match_mono.
  - destruct Hok as [Hm | [Hball Haall]].
    + left. by eapply specific_match_mono.
    + right. destruct Hb as [Hb _], Ha as [Ha _]. split; [|by apply Ha].
      destruct (all (blocked a)); [|reflexivity].
      rewrite Hb in Hball by reflexivity. discriminate.
Qed.

(** X1. Adding predicates to the blocked collection, or taking predicates
    away from the allowed one, never turns a refusal into a permission. *)
Theorem ACL_Allowed_monotone `{User U} (a a' : ACL) (u : U) :
  collection_le (blocked a) (blocked a') ->
  collection_le (allowed a') (allowed a) ->
  ACL_Allowed a' u = true -> ACL_Allowed a u = true.
Proof. intros Hb Ha Hok. by apply (ACL_Allowed_le a a' u Hb Ha). Qed.

(** ** The comparisons of the tests *)

Lemma compareSlices_match_elem (i : string) (b : list string) :
  compareSlices_match i b = true <-> i ∈ b.
Proof.
  induction b as [|j b IH]; simpl.
  - split; [discriminate | intros Hin; by apply elem_of_nil in Hin].
  - rewrite elem_of_cons. destruct (String.eqb_spec i j) as [-> | Hne].
    + split; [by left | reflexivity].
    + rewrite IH. split; [by right | intros [? | ?]; [congruence | assumption]].
Qed.

Lemma compareSlices_loop_incl (a b : list string) :
  compareSlices_loop a b = true <-> a ⊆ b.
Proof.
  induction a as [|i a IH]; simpl.
  - split; [intros _ x Hx; by apply elem_of_nil in Hx | reflexivity].
  - destruct (compareSlices_match i b) eqn:Hm.
    + apply compareSlices_match_elem in Hm. rewrite IH. split.
      * intros Hsub x [-> | Hx]%elem_of_cons; [assumption | by apply Hsub].
      * intros Hsub x Hx. apply Hsub. by right.
    + split; [discriminate |]. intros Hsub.
      assert (i ∈ b) as Hin by (apply Hsub; by left).
      apply compareSlices_match_elem in Hin. congruence.
Qed.

(** X4. [compareSlices] is true exactly when the slices have the same
    length and every element of the first is in the second.  When the first
    has no repeated element this says that the second is a rearrangement of
    the first. *)
Theorem compareSlices_spec (a b : list string) :
  (compareSlices a b = true <-> length a = length b /\ a ⊆ b)
  /\ (NoDup a -> (compareSlices a b = true <-> a ≡ₚ b)).
Proof.
  assert (compareSlices a b = true <-> length a = length b /\ a ⊆ b) as Hspec.
  { unfold compareSlices. destruct (Nat.eqb_spec (length a) (length b)) as [Hl | Hl]; simpl.
    - rewrite compareSlices_loop_incl. tauto.
    - split; [discriminate | tauto]. }
  split; [exact Hspec |].
  intros Hnd. rewrite Hspec. split.
  - intros [Hl Hsub]. apply submseteq_length_Permutation; [|lia].
    by apply NoDup_submseteq.
  - intros Hp. split; [by rewrite Hp | by rewrite Hp].
Qed.

(** ** The parser, term by term *)

Lemma collection_eta (c : collection) :
  mkCollection (all c) (users c) (groups c) (flags c) = c.
Proof. by destruct c. Qed.

Lemma term_effect_nothing (t : string) (c : collection) :
  term_all t = false -> term_user t = None -> term_group t = None ->
  term_effect t c = c.
Proof.
  intros Ha Hu Hg. unfold term_effect. rewrite Ha, Hu, Hg. simpl.
  rewrite orb_false_r, !app_nil_r. apply collection_eta.
Qed.

Lemma through_ext (b : bool) (g g' : collection -> collection) (a : ACL) :
  (forall c, g c = g' c) -> through b g a = through b g' a.
Proof. intros Hg. unfold through. by rewrite !Hg. Qed.

Ltac same_effect :=
  first
    [ reflexivity
    | f_equal; apply through_ext; intros ?;
      unfold set_all, append_users, append_groups; simpl;
      rewrite ?orb_false_r, ?orb_true_r, ?app_nil_r; reflexivity ].

(** [parse_term] on the term [String c r]: the error of the term, or what
    the term adds. *)
Lemma parse_term_effect (b : bool) (c : ascii) (r : string) (a : ACL) :
  parse_term b c r a =
  match term_bad (String c r) with
  | Some e => inl e
  | None => inr (through b (term_effect (String c r)) a)
  end.
Proof.
  unfold parse_term, term_bad, term_effect, term_all, term_user, term_group,
    named, bare, is_star.
  by_char c "-"%char; [|by_char c "="%char].
  - destruct r as [|c' r']; [reflexivity |]. simpl.
    by_char c' "*"%char; simpl; [destruct r'; simpl |]; same_effect.
  - destruct r as [|c' r']; [reflexivity |]. simpl.
    by_char c' "*"%char; simpl; [destruct r'; simpl |]; same_effect.
  - simpl. not_chars. simpl.
    by_char c "*"%char; simpl; [destruct r; simpl |]; same_effect.
Qed.

Lemma ACL_eta (a : ACL) : mkACL (allowed a) (blocked a) = a.
Proof. by destruct a. Qed.

Lemma parse_field_effect (f : string) (a : ACL) :
  parse_field f a =
  match field_bad f with
  | Some e => inl e
  | None => inr (mkACL (field_effect false f (allowed a))
                       (field_effect true f (blocked a)))
  end.
Proof.
  destruct f as [|c0 r0].
  - simpl. unfold field_effect. simpl.
    rewrite term_effect_nothing by reflexivity. by rewrite ACL_eta.
  - unfold parse_field, field_bad, field_effect, field_term. simpl.
    by_char c0 "!"%char.
    + destruct r0 as [|c1 r1]; [reflexivity |]. simpl.
      rewrite parse_term_effect. by destruct (term_bad _).
    + rewrite parse_term_effect. by destruct (term_bad _).
Qed.

(** The whole loop: the first error, or the effect of every field. *)
Lemma parse_fields_effect (fs : list string) (a : ACL) :
  parse_fields fs a =
  match head (omap field_bad fs) with
  | Some e => inl e
  | None => inr (mkACL (foldl (fun c f => field_effect false f c) (allowed a) fs)
                       (foldl (fun c f => field_effect true f c) (blocked a) fs))
  end.
Proof.
  revert a. induction fs as [|f fs IH]; intros a; simpl.
  - by rewrite ACL_eta.
  - rewrite parse_field_effect. destruct (field_bad f) as [e|]; simpl; [reflexivity |].
    by rewrite IH.
Qed.

Lemma foldl_field_effect (b : bool) (fs : list string) (c : collection) :
  let c' := foldl (fun c f => field_effect b f c) c fs in
  all c' = all c || existsb (field_all b) fs
  /\ users c' = users c ++ omap (field_user b) fs
  /\ groups c' = groups c ++ omap (field_group b) fs
  /\ flags c' = flags c.
Proof.
  revert c. induction fs as [|f fs IH]; intros c; simpl.
  - by rewrite orb_false_r, !app_nil_r.
  - destruct (IH (field_effect b f c)) as (Ha & Hu & Hg & Hf).
    rewrite Ha, Hu, Hg, Hf. clear IH Ha Hu Hg Hf.
    unfold field_effect, field_all, field_user, field_group.
    destruct (field_term b f) as [t|]; simpl.
    + rewrite orb_assoc, <- !app_assoc.
      repeat split; f_equal;
        [by destruct (term_user t) | by destruct (term_group t)].
    + by repeat split.
Qed.

Lemma append_cons (a : ascii) (p r : string) :
  String a p +:+ r = String a (p +:+ r).
Proof. reflexivity. Qed.

Lemma strip_prefix_Some (p f r : string) :
  strip_prefix p f = Some r <-> f = p +:+ r.
Proof.
  revert f. induction p as [|a p IH]; intros f.
  - change ("" +:+ r) with r. simpl. split; congruence.
  - rewrite append_cons. simpl. destruct f as [|b f]; [split; discriminate |].
    by_char b a.
    + rewrite IH. split; congruence.
    + split; [discriminate | congruence].
Qed.

Lemma named_Some (p t x : string) :
  named p t = Some x <-> t = p +:+ x /\ x <> "" /\ x <> "*".
Proof.
  unfold named. destruct (strip_prefix p t) as [r|] eqn:Hs.
  - apply strip_prefix_Some in Hs as ->.
    destruct (String.eqb_spec r "") as [-> | Hne]; simpl.
    + split; [discriminate |]. intros (Heq%(inj (String.append p)) & Hx & _).
      congruence.
    + destruct (String.eqb_spec r "*") as [-> | Hns].
      * split; [discriminate |]. intros (Heq%(inj (String.append p)) & _ & Hx).
        congruence.
      * split.
        -- intros [= <-]. by repeat split.
        -- intros (Heq%(inj (String.append p)) & _ & _). congruence.
  - split; [discriminate |]. intros (-> & _ & _).
    assert (strip_prefix p (p +:+ x) = Some x) as Habs by by apply strip_prefix_Some.
    congruence.
Qed.

Lemma field_user_Some (b : bool) (f x : string) :
  field_user b f = Some x <-> f = bang b +:+ "-" +:+ x /\ x <> "" /\ x <> "*".
Proof.
  unfold field_user, field_term, term_user. destruct b.
  - change (bang true +:+ "-" +:+ x) with ("!" +:+ ("-" +:+ x)).
    destruct (strip_prefix "!" f) as [t|] eqn:Hs; simpl.
    + apply strip_prefix_Some in Hs as ->. rewrite named_Some.
      split; [intros (-> & ? & ?); by repeat split |].
      intros (Heq%(inj (String.append "!")) & ? & ?). by repeat split.
    + split; [discriminate |]. intros (-> & _ & _).
      by rewrite (proj2 (strip_prefix_Some "!" _ _) eq_refl) in Hs.
  - change (bang false +:+ "-" +:+ x) with ("-" +:+ x).
    destruct (starts_with "!" f) eqn:Hb; simpl.
    + split; [discriminate |]. intros (-> & _ & _). discriminate.
    + apply named_Some.
Qed.

Lemma term_all_true (t : string) :
  term_all t = true <-> t = "*" \/ t = "-*" \/ t = "=*".
Proof. unfold term_all. rewrite !orb_true_iff, !String.eqb_eq. tauto. Qed.

Lemma field_all_true (b : bool) (f : string) :
  field_all b f = true <->
  f = bang b +:+ "*" \/ f = bang b +:+ "-*" \/ f = bang b +:+ "=*".
Proof.
  unfold field_all, field_term. destruct b.
  - destruct (strip_prefix "!" f) as [t|] eqn:Hs; simpl.
    + apply strip_prefix_Some in Hs as ->. rewrite term_all_true.
      split; (intros [H | [H | H]]; [left | right; left | right; right]);
        first [by rewrite H | by apply (inj (String.append "!")) in H].
    + split; [discriminate |].
      intros [-> | [-> | ->]]; discriminate.
  - destruct (starts_with "!" f) eqn:Hb; simpl.
    + split; [discriminate |]. intros [-> | [-> | ->]]; discriminate.
    + apply term_all_true.
Qed.

Lemma NewFromString_effect (s : string) (a : ACL) :
  NewFromString s = inr a ->
  head (omap field_bad (Fields (ToLower s))) = None
  /\ forall b,
       all (sel b a) = existsb (field_all b) (Fields (ToLower s))
       /\ users (sel b a) = omap (field_user b) (Fields (ToLower s))
       /\ groups (sel b a) = omap (field_group b) (Fields (ToLower s))
       /\ flags (sel b a) = [].
Proof.
  intros Hs%NewFromString_fields. rewrite parse_fields_effect in Hs.
  destruct (head _) as [e|]; [discriminate |]. injection Hs as <-.
  split; [reflexivity |]. intros b.
  destruct b; simpl; apply (foldl_field_effect _ _ collection_zero).
Qed.

(** X5. The content of a parsed ACL, read off the fields of the lower-cased
    input: the users of a collection are the names of its [-name] fields, in
    their order and as often as they are written; a collection has its [all]
    flag when one of [*], [-*] and [=*] is a field (behind [!] for the
    blocked collection). *)
Theorem NewFromString_content (s : string) (a : ACL) (b : bool) :
  NewFromString s = inr a ->
  users (sel b a) = omap (field_user b) (Fields (ToLower s))
  /\ groups (sel b a) = omap (field_group b) (Fields (ToLower s))
  /\ all (sel b a) = existsb (field_all b) (Fields (ToLower s))
  /\ (forall x, x ∈ users (sel b a) <->
        x <> "" /\ x <> "*" /\ bang b +:+ "-" +:+ x ∈ Fields (ToLower s))
  /\ (all (sel b a) = true <->
        exists f, f ∈ Fields (ToLower s)
          /\ (f = bang b +:+ "*" \/ f = bang b +:+ "-*" \/ f = bang b +:+ "=*")).
Proof.
  intros (_ & Heff)%NewFromString_effect.
  destruct (Heff b) as (Ha & Hu & Hg & _).
  split; [exact Hu |]. split; [exact Hg |]. split; [exact Ha |]. split.
  - intros x. rewrite Hu, list_elem_of_omap. split.
    + intros (f & Hf & (-> & ? & ?)%field_user_Some). by repeat split.
    + intros (? & ? & Hf). eexists. split; [exact Hf |].
      by apply field_user_Some.
  - rewrite Ha, existsb_exists. split.
    + intros (f & Hf%list_elem_of_In & Hall%field_all_true). by exists f.
    + intros (f & Hf%list_elem_of_In & Hall%field_all_true). by exists f.
Qed.

Lemma term_bad_Some (t : string) (e : error) :
  term_bad t = Some e <->
  (t = "-" /\ e = errors_New "expected string after '-'")
  \/ (t = "=" /\ e = errors_New "expected string after '='").
Proof.
  unfold term_bad.
  destruct (String.eqb_spec t "-") as [-> | Hd];
    [|destruct (String.eqb_spec t "=") as [-> | He]].
  - split; [intros [= <-]; by left | intros [[_ ->] | [? _]]; [reflexivity | discriminate]].
  - split; [intros [= <-]; by right | intros [[? _] | [_ ->]]; [discriminate | reflexivity]].
  - split; [discriminate | intros [[? _] | [? _]]; congruence].
Qed.

Lemma field_bad_Some (f : string) (e : error) :
  field_bad f = Some e <->
  (f = "!" /\ e = errors_New "expected string after '!'")
  \/ ((f = "-" \/ f = "!-") /\ e = errors_New "expected string after '-'")
  \/ ((f = "=" \/ f = "!=") /\ e = errors_New "expected string after '='").
Proof.
  unfold field_bad. destruct (String.eqb_spec f "!") as [-> | Hb].
  - split; [intros [= <-]; by left |].
    intros [[_ ->] | [[[? | ?] _] | [[? | ?] _]]]; try discriminate; reflexivity.
  - destruct (strip_prefix "!" f) as [t|] eqn:Hs.
    + apply strip_prefix_Some in Hs as ->. rewrite term_bad_Some. split.
      * intros [[-> ->] | [-> ->]]; [right; left | right; right]; split; auto.
      * intros [[? _] | [[[? | H] ->] | [[? | H] ->]]]; try discriminate; try congruence;
          apply (inj (String.append "!")) in H; subst; [by left | by right].
    + rewrite term_bad_Some. split.
      * intros [[-> ->] | [-> ->]]; [right; left | right; right]; split; auto.
      * intros [[? _] | [[[-> | ->] ->] | [[-> | ->] ->]]]; try congruence;
          try discriminate; [by left | by right].
Qed.

Lemma field_bad_refused (f : string) :
  field_bad f = None <-> f ∉ refused_fields.
Proof.
  unfold refused_fields. rewrite !not_elem_of_cons. split.
  - intros Hn. repeat split; try apply not_elem_of_nil; intros ->; discriminate.
  - intros (H1 & H2 & H3 & H4 & H5 & _).
    destruct (field_bad f) as [e|] eqn:Hf; [|reflexivity].
    apply field_bad_Some in Hf. exfalso. tauto.
Qed.

Lemma head_omap_None {A B} (g : A -> option B) (l : list A) :
  head (omap g l) = None <-> forall x, x ∈ l -> g x = None.
Proof.
  induction l as [|y l IH]; simpl.
  - split; [intros _ x Hx; by apply elem_of_nil in Hx | reflexivity].
  - destruct (g y) eqn:Hy; simpl.
    + split; [discriminate |]. intros Hall.
      rewrite Hall in Hy by (by left). discriminate.
    + rewrite IH. split.
      * intros Hall x [-> | Hx]%elem_of_cons; auto.
      * intros Hall x Hx. apply Hall. by right.
Qed.

(** X6. [NewFromString] fails on the empty input, and on an input with a
    field that is [!] alone or a prefix alone ([-], [=], [!-], [!=]); the
    error is that of the first such field.  Every other input is parsed. *)
Theorem NewFromString_errors (s : string) :
  (forall e, NewFromString s = inl e <->
     (s = "" /\ e = errors_New "no input string given")
     \/ (s <> "" /\ head (omap field_bad (Fields (ToLower s))) = Some e))
  /\ ((exists a, NewFromString s = inr a) <->
      s <> "" /\ forall f, f ∈ Fields (ToLower s) -> f ∉ refused_fields)
  /\ (forall f e, field_bad f = Some e <->
        (f = "!" /\ e = errors_New "expected string after '!'")
        \/ ((f = "-" \/ f = "!-") /\ e = errors_New "expected string after '-'")
        \/ ((f = "=" \/ f = "!=") /\ e = errors_New "expected string after '='")).
Proof.
  split; [|split; [|apply field_bad_Some]].
  - intros e. destruct s as [|c s].
    + simpl. split; [intros [= <-]; by left |].
      intros [[_ ->] | [? _]]; [reflexivity | congruence].
    + unfold NewFromString. rewrite parse_fields_effect.
      destruct (head _) as [e'|].
      * split; [intros [= <-]; right; by split |].
        intros [[? _] | [_ [= <-]]]; [discriminate | reflexivity].
      * split; [discriminate | intros [[? _] | [_ ?]]; discriminate].
  - destruct s as [|c s].
    + simpl. split; [intros [a Ha]; discriminate | intros [? _]; congruence].
    + unfold NewFromString. rewrite parse_fields_effect.
      destruct (head _) as [e'|] eqn:Hh.
      * split; [intros [a Ha]; discriminate |]. intros [_ Hall].
        assert (head (omap field_bad (Fields (ToLower (String c s)))) = None) as Hn.
        { apply head_omap_None. intros f Hf. by apply field_bad_refused, Hall. }
        congruence.
      * split; [|intros _; by eexists]. intros _. split; [discriminate |].
        intros f Hf. apply field_bad_refused.
        by apply (proj1 (head_omap_None _ _) Hh).
Qed.

Lemma existsb_incl (p : string -> bool) (l l' : list string) :
  l ⊆ l' -> existsb p l = true -> existsb p l' = true.
Proof.
  rewrite !existsb_exists. intros Hsub (x & Hx%list_elem_of_In & Hp).
  exists x. split; [by apply list_elem_of_In, Hsub | assumption].
Qed.

Lemma omap_incl (g : string -> option string) (l l' : list string) :
  l ⊆ l' -> omap g l ⊆ omap g l'.
Proof.
  intros Hsub y. rewrite !list_elem_of_omap. intros (x & Hx & Hg).
  exists x. split; [by apply Hsub | assumption].
Qed.

(** Two parsed inputs, the fields of the first being fields of the second:
    each collection of the first is within that of the second. *)
Lemma NewFromString_incl (s1 s2 : string) (a1 a2 : ACL) (b : bool) :
  NewFromString s1 = inr a1 -> NewFromString s2 = inr a2 ->
  Fields (ToLower s1) ⊆ Fields (ToLower s2) ->
  collection_le (sel b a1) (sel b a2).
Proof.
  intros (_ & H1)%NewFromString_effect (_ & H2)%NewFromString_effect Hsub.
  destruct (H1 b) as (Ha1 & Hu1 & Hg1 & Hf1), (H2 b) as (Ha2 & Hu2 & Hg2 & Hf2).
  unfold collection_le. rewrite Ha1, Ha2, Hu1, Hu2, Hg1, Hg2, Hf1, Hf2.
  split; [by apply existsb_incl |].
  split; [by apply omap_incl |]. split; [by apply omap_incl | done].
Qed.

(** X7. The order of the fields of an ACL and their repetition are of no
    account: when an input is parsed, every input that is not empty and has
    the same fields is parsed too, and the two ACLs decide alike. *)
Theorem NewFromString_same_fields (s1 s2 : string) (a1 : ACL) :
  NewFromString s1 = inr a1 -> s2 <> "" -> same_fields s1 s2 ->
  exists a2, NewFromString s2 = inr a2
    /\ forall (U : Type) (HU : User U) (u : U), ACL_Allowed a1 u = ACL_Allowed a2 u.
Proof.
  intros H1 Hne Hsame.
  assert (exists a2, NewFromString s2 = inr a2) as [a2 H2].
  { destruct s2 as [|c s2]; [congruence |].
    unfold NewFromString. rewrite parse_fields_effect.
    destruct (head _) as [e|] eqn:Hh; [|by eexists].
    apply NewFromString_effect in H1 as [Hn _].
    assert (head (omap field_bad (Fields (ToLower (String c s2)))) = None) as Hn2.
    { apply head_omap_None. intros f Hf%Hsame.
      by apply (proj1 (head_omap_None _ _) Hn). }
    congruence. }
  exists a2. split; [exact H2 |]. intros U HU u.
  assert (Fields (ToLower s1) ⊆ Fields (ToLower s2)) as H12 by (intros f; apply Hsame).
  assert (Fields (ToLower s2) ⊆ Fields (ToLower s1)) as H21 by (intros f; apply Hsame).
  apply eq_true_iff_eq. split.
  - apply ACL_Allowed_le.
    + apply (NewFromString_incl s2 s1 a2 a1 true H2 H1 H21).
    + apply (NewFromString_incl s1 s2 a1 a2 false H1 H2 H12).
  - apply ACL_Allowed_le.
    + apply (NewFromString_incl s1 s2 a1 a2 true H1 H2 H12).
    + apply (NewFromString_incl s2 s1 a2 a1 false H2 H1 H21).
Qed.

(** ** The credential store, continued *)

Section AuthenticatorMore.

Variable bcrypt_GenerateFromPassword : string -> string -> nat -> error + string.
Variable bcrypt_CompareHashAndPassword : string -> string -> option error.
Variable msgpack_Encode : StoredUser -> error + string.
Variable msgpack_Decode : string -> StoredUser -> error + StoredUser.

Local Abbreviation GetUser' := (GetUser msgpack_Decode).
Local Abbreviation AddUser' :=
  (AddUser bcrypt_GenerateFromPassword msgpack_Encode msgpack_Decode).
Local Abbreviation CheckPassword' :=
  (CheckPassword bcrypt_CompareHashAndPassword msgpack_Decode).

Lemma user_key_inj (n n' : string) : "user:" +:+ n = "user:" +:+ n' -> n = n'.
Proof. apply (inj (String.append "user:")). Qed.

(** What [AddUser] does to the store: nothing, or one entry set under the
    key of the name. *)
Lemma AddUser_store (salt : string) (db db' : DB) (name pass : string)
    (r : error + StoredUser) :
  AddUser' salt db name pass = (db', r) ->
  db' = db
  \/ exists b u, r = inr u /\ fault db = None
       /\ db' = mkDB (<["user:" +:+ name := b]> (kv db)) None.
Proof.
  unfold AddUser.
  destruct (GetUser' db name) as [err|u0]; [|intros [= <- _]; by left].
  case_decide; [|intros [= <- _]; by left].
  destruct (bcrypt_GenerateFromPassword salt pass bcrypt_DefaultCost) as [err'|h];
    [intros [= <- _]; by left |].
  unfold encodeAndUpdate. destruct (fault db) as [err'|] eqn:Hf; [intros [= <- _]; by left |].
  destruct (msgpack_Encode _) as [err'|b]; [intros [= <- _]; by left |].
  intros [= <- <-]. right. by exists b, (mkStoredUser name h).
Qed.

(** X8. An [AddUser] that returns an error leaves the store as it was. *)
Theorem AddUser_error_keeps_store (salt : string) (db db' : DB)
    (name pass : string) (e : error) :
  AddUser' salt db name pass = (db', inl e) -> db' = db.
Proof.
  intros [Hsame | (b & u & [=] & _)]%AddUser_store. exact Hsame.
Qed.

Lemma GetUser_frame (db db' : DB) (name : string) :
  fault db' = fault db ->
  kv db' !! ("user:" +:+ name) = kv db !! ("user:" +:+ name) ->
  GetUser' db' name = GetUser' db name.
Proof.
  intros Hf Hk. unfold GetUser, getAndDecode.
  change (user_Key (mkStoredUser name "")) with ("user:" +:+ name).
  by rewrite Hf, Hk.
Qed.

(** X9. [AddUser] on a name touches no entry but that of the name: every
    other key of the store keeps its value, and [GetUser] and
    [CheckPassword] of every other name answer as before. *)
Theorem AddUser_other_users (salt : string) (db db' : DB) (name pass : string)
    (r : error + StoredUser) :
  AddUser' salt db name pass = (db', r) ->
  fault db' = fault db
  /\ (forall k, k <> "user:" +:+ name -> kv db' !! k = kv db !! k)
  /\ (forall name' pass', name' <> name ->
        GetUser' db' name' = GetUser' db name'
        /\ CheckPassword' db' name' pass' = CheckPassword' db name' pass').
Proof.
  intros Hadd.
  assert (fault db' = fault db
          /\ forall k, k <> "user:" +:+ name -> kv db' !! k = kv db !! k) as [Hf Hk].
  { apply AddUser_store in Hadd as [-> | (b & u & _ & Hf & ->)]; [by split |].
    split; [by rewrite Hf |]. intros k Hne. simpl. by rewrite lookup_insert_ne. }
  split; [exact Hf |]. split; [exact Hk |].
  intros name' pass' Hne.
  assert (GetUser' db' name' = GetUser' db name') as Hget.
  { apply GetUser_frame; [exact Hf |]. apply Hk.
    intros Heq%user_key_inj. congruence. }
  split; [exact Hget |]. unfold CheckPassword. by rewrite Hget.
Qed.

(** X10. [GetUser] turns the "key not found" of badger into
    [ErrUserDoesntExist] and never returns it; it finds a user exactly when
    the store works and the value under the key of the name decodes. *)
Theorem GetUser_spec (db : DB) (name : string) :
  GetUser' db name <> inl badger_ErrKeyNotFound
  /\ (fault db = None -> kv db !! ("user:" +:+ name) = None ->
      GetUser' db name = inl ErrUserDoesntExist)
  /\ (forall u, GetUser' db name = inr u <->
        fault db = None
        /\ exists v, kv db !! ("user:" +:+ name) = Some v
             /\ msgpack_Decode v (mkStoredUser name "") = inr u).
Proof.
  unfold GetUser, getAndDecode.
  change (user_Key (mkStoredUser name "")) with ("user:" +:+ name).
  destruct (fault db) as [err|]; [|destruct (kv db !! _) as [v|]];
    [| destruct (msgpack_Decode v _) as [err|u0] eqn:Hdec |].
  - split; [case_decide; congruence |]. split; [discriminate |].
    intros u. split; [case_decide; discriminate | intros [[=] _]].
  - split; [case_decide; congruence |]. split; [discriminate |].
    intros u. split; [case_decide; discriminate |].
    intros (_ & v' & [= <-] & Hd). congruence.
  - split; [discriminate |]. split; [discriminate |].
    intros u. split; [intros [= <-]; split; [reflexivity | by exists v] |].
    intros (_ & v' & [= <-] & Hd). congruence.
  - split; [simpl; discriminate |]. split; [reflexivity |].
    intros u. split; [simpl; discriminate | intros (_ & v' & [=] & _)].
Qed.

(** What the authenticator expects of msgpack on a value that does not
    decode: an error of its own, not one of the two "not found" errors. *)
Hypothesis msgpack_own_errors : forall v e err,
  msgpack_Decode v e = inl err ->
  err <> badger_ErrKeyNotFound /\ err <> ErrUserDoesntExist.

(** X11. [AddUser] never writes over an entry: when the key of the name has
    a value in the store, [AddUser] returns an error and the store stays as
    it was. *)
Theorem AddUser_never_overwrites (salt : string) (db : DB) (name pass v : string) :
  kv db !! ("user:" +:+ name) = Some v ->
  exists e, AddUser' salt db name pass = (db, inl e).
Proof.
  intros Hk. unfold AddUser, GetUser, getAndDecode, encodeAndUpdate.
  change (user_Key (mkStoredUser name "")) with ("user:" +:+ name).
  rewrite Hk. destruct (fault db) as [err|] eqn:Hf.
  - repeat case_decide; try (by eexists);
      destruct (bcrypt_GenerateFromPassword _ _ _); by eexists.
  - destruct (msgpack_Decode v _) as [err|u] eqn:Hdec; [|by eexists].
    destruct (msgpack_own_errors _ _ _ Hdec) as [H1 H2].
    rewrite decide_False by assumption. rewrite decide_False by assumption.
    by eexists.
Qed.

Hypothesis bcrypt_verifies : forall salt pass cost h,
  bcrypt_GenerateFromPassword salt pass cost = inr h ->
  bcrypt_CompareHashAndPassword h pass = None.
Hypothesis msgpack_roundtrip : forall u b e,
  msgpack_Encode u = inr b -> msgpack_Decode b e = inr u.

(** X12. Two users added one after the other under different names: the
    password of each checks in the final store, and the second [AddUser]
    did not change the entry of the first. *)
Theorem AddUser_twice (salt1 salt2 : string) (db db1 db2 : DB)
    (n1 p1 n2 p2 : string) (u1 u2 : StoredUser) :
  n1 <> n2 ->
  AddUser' salt1 db n1 p1 = (db1, inr u1) ->
  AddUser' salt2 db1 n2 p2 = (db2, inr u2) ->
  GetUser' db2 n1 = inr u1 /\ GetUser' db2 n2 = inr u2
  /\ CheckPassword' db2 n1 p1 = true /\ CheckPassword' db2 n2 p2 = true.
Proof.
  intros Hne H1 H2.
  pose proof (AddUser_inr _ _ _ msgpack_roundtrip _ _ _ _ _ _ H1)
    as (b1 & _ & Hg1 & _ & _ & _ & _ & Hget1).
  pose proof (AddUser_inr _ _ _ msgpack_roundtrip _ _ _ _ _ _ H2)
    as (b2 & _ & Hg2 & _ & _ & _ & _ & Hget2).
  assert (GetUser' db2 n1 = inr u1) as Hget1'.
  { rewrite <- Hget1. apply GetUser_frame.
    - apply AddUser_store in H2 as [-> | (b & u & _ & Hf & ->)]; [reflexivity |].
      by rewrite Hf.
    - apply AddUser_store in H2 as [-> | (b & u & _ & Hf & ->)]; [reflexivity |].
      simpl. rewrite lookup_insert_ne; [reflexivity |].
      intros Heq%user_key_inj. congruence. }
  split; [exact Hget1' |]. split; [exact Hget2 |].
  unfold CheckPassword. rewrite Hget1', Hget2.
  by rewrite (bcrypt_verifies _ _ _ _ Hg1), (bcrypt_verifies _ _ _ _ Hg2).
Qed.

End AuthenticatorMore.

Lemma toy_own_errors (v : string) (e : StoredUser) (err : error) :
  toy_decode v e = inl err ->
  err <> badger_ErrKeyNotFound /\ err <> ErrUserDoesntExist.
Proof. discriminate. Qed.

(** X13. [AddGroup] asks [GetGroup], which is a stub: whatever the store
    and the name, [AddGroup] returns the error "stub" and stores nothing,
    and so does every sequence of calls of it. *)
Theorem AddGroup_never_adds (enc : Group -> error + string) (db : DB) (names : list string) :
  (forall name, AddGroup enc db name = (db, inl (errors_New "stub")))
  /\ AddGroups enc db names = db.
Proof.
  split; [reflexivity |].
  unfold AddGroups. induction names as [|n names IH]; simpl; [reflexivity | exact IH].
Qed.

(** ** The command PASS *)

Section PASS.

Context {Sess St Status : Type} {HS : Session Sess St Status} {HL : SessionLaws HS}.

Lemma length_zero_empty (l : string) : (String.length l =? 0)%nat = true <-> l = "".
Proof. destruct l; simpl; split; congruence. Qed.

(** X14. PASS logs a session in only on a good password: a session that is
    logged in after the command, and was not before, had a login, got
    exactly one parameter that [CheckPassword] accepts for that login, and
    the command returned no error; the login is kept.  And with one
    parameter that [CheckPassword] accepts for the login of the session, the
    session is logged in as soon as the welcome is sent. *)
Theorem commandPASS_logs_in (s : Sess) (params : list string) :
  (State (commandPASS_Execute s params).1 = SessionStateLoggedIn ->
   State s <> SessionStateLoggedIn ->
   exists p, params = [p] /\ Login s <> ""
     /\ Auth_CheckPassword s (Login s) p = true
     /\ (commandPASS_Execute s params).2 = None
     /\ Login (commandPASS_Execute s params).1 = Login s)
  /\ (forall p, params = [p] -> Login s <> "" ->
        Auth_CheckPassword s (Login s) p = true ->
        (ReplyWithArgs s StatusUserLoggedIn ("Welcome back " +:+ Login s +:+ "!")).2 = None ->
        State (commandPASS_Execute s params).1 = SessionStateLoggedIn
        /\ (commandPASS_Execute s params).2 = None).
Proof.
  split.
  - intros Hin Hout. unfold commandPASS_Execute in *.
    destruct params as [|p [|q params]];
      try (rewrite State_ReplyStatus in Hin; congruence).
    destruct (String.length (Login s) =? 0)%nat eqn:Hl;
      [rewrite State_ReplyStatus in Hin; congruence |].
    destruct (Auth_CheckPassword s (Login s) p) eqn:Hc; simpl in *;
      [|rewrite State_ReplyStatus, State_SetLogin in Hin; congruence].
    pose proof (State_ReplyWithArgs s StatusUserLoggedIn
                  ("Welcome back " +:+ Login s +:+ "!")) as Hst.
    pose proof (Login_ReplyWithArgs s StatusUserLoggedIn
                  ("Welcome back " +:+ Login s +:+ "!")) as Hlg.
    destruct (ReplyWithArgs s StatusUserLoggedIn _) as [s1 [err|]]; simpl in *.
    + rewrite State_SetLogin in Hin. congruence.
    + exists p. split; [reflexivity |]. split.
      { intros Hempty. apply length_zero_empty in Hempty. congruence. }
      split; [exact Hc |]. split; [reflexivity |].
      by rewrite Login_SetState.
  - intros p -> Hne Hc Hreply. unfold commandPASS_Execute.
    destruct (String.length (Login s) =? 0)%nat eqn:Hl;
      [apply length_zero_empty in Hl; congruence |].
    rewrite Hc. simpl.
    destruct (ReplyWithArgs s StatusUserLoggedIn _) as [s1 [err|]]; simpl in *;
      [discriminate |].
    by rewrite State_SetState.
Qed.

(** X15. After a password that [CheckPassword] refuses, the login of the
    session is empty and its state is as before; the next PASS, whatever
    its password, is answered with "bad command sequence" only, and the
    password is not looked at. *)
Theorem commandPASS_wrong_password (s : Sess) (p : string) :
  Login s <> "" -> Auth_CheckPassword s (Login s) p = false ->
  Login (commandPASS_Execute s [p]).1 = ""
  /\ State (commandPASS_Execute s [p]).1 = State s
  /\ forall p2,
       commandPASS_Execute (commandPASS_Execute s [p]).1 [p2]
       = ReplyStatus (commandPASS_Execute s [p]).1 StatusBadCommandSequence.
Proof.
  intros Hne Hc.
  assert (Login (commandPASS_Execute s [p]).1 = ""
          /\ State (commandPASS_Execute s [p]).1 = State s) as [Hl Hs].
  { unfold commandPASS_Execute.
    destruct (String.length (Login s) =? 0)%nat eqn:Hlen;
      [apply length_zero_empty in Hlen; congruence |].
    rewrite Hc. simpl.
    by rewrite Login_ReplyStatus, State_ReplyStatus, Login_SetLogin, State_SetLogin. }
  split; [exact Hl |]. split; [exact Hs |].
  intros p2. unfold commandPASS_Execute at 1. by rewrite Hl.
Qed.

End PASS.

End WithTable.

(** * The properties on examples *)

(** The examples are run with the table [example_table]. *)
#[local] Existing Instance example_table.

Lemma NewPermissions_duplicates_witness :
  exists l1 r l2,
    [mkRule "/dir/a" "download" ACL_zero; mkRule "/dir/a" "download" ACL_zero]
      = l1 ++ r :: l2
    /\ rule_key r ∈ (rule_key <$> l1)
    /\ Error (already_exists (mkRule "/dir/a" "download" ACL_zero)) =
       "path '" +:+ path r +:+ "' for scope '" +:+ scope r +:+ "' already exists".
Proof.
  apply (proj1 (proj2 (NewPermissions_duplicates
    [mkRule "/dir/a" "download" ACL_zero; mkRule "/dir/a" "download" ACL_zero]))).
  vm_compute. reflexivity.
Defined.

Lemma Permissions_Allowed_longest_witness :
  Permissions_Allowed (<["download" := [("/", ACL_zero)]]> ∅) "upload" "/dir/a"
    (mkIdentity "user" [] []) = false.
Proof.
  apply (proj1 (Permissions_Allowed_longest
    (<["download" := [("/", ACL_zero)]]> ∅) "upload" "/dir/a" (mkIdentity "user" [] []))).
  vm_compute. reflexivity.
Defined.


Lemma AddUser_spec_witness :
  AddUser toy_generate toy_encode toy_decode "other" alice_db "alice" "pw2"
    = (alice_db, inl ErrUserExists)
  /\ GetUser toy_decode alice_db "alice"
       = inr (mkStoredUser "alice" (toy_pair "salt" "pw")).
Proof.
  destruct (AddUser_spec toy_generate toy_compare toy_encode toy_decode
              toy_verifies toy_roundtrip "salt" empty_db "alice" "pw") as (_ & _ & Hadd).
  assert (AddUser toy_generate toy_encode toy_decode "salt" empty_db "alice" "pw"
          = (alice_db, inr (mkStoredUser "alice" (toy_pair "salt" "pw")))) as Ha
    by (vm_compute; reflexivity).
  destruct (Hadd _ _ Ha) as (_ & _ & Hsecond).
  destruct (Hsecond "other" "pw2") as (H1 & H2 & _). by split.
Defined.

(** A blocked user is denied by an ACL that allows all. *)
Lemma ACL_Allowed_precedence_witness :
  ACL_Allowed (mkACL (mkCollection true [] [] []) (mkCollection false ["bob"] [] []))
    (mkIdentity "Bob" [] []) = false.
Proof.
  apply (proj1 (proj2 (ACL_Allowed_precedence
    (mkACL (mkCollection true [] [] []) (mkCollection false ["bob"] [] []))
    (mkIdentity "Bob" [] [])))).
  left. vm_compute. by left.
Defined.

Lemma ACL_Allowed_monotone_witness :
  ACL_Allowed (mkACL (mkCollection true ["bob"] [] []) (mkCollection false [] [] []))
    (mkIdentity "alice" [] []) = true.
Proof.
  apply (ACL_Allowed_monotone
           (mkACL (mkCollection true ["bob"] [] []) (mkCollection false [] [] []))
           (mkACL (mkCollection true [] [] []) (mkCollection false ["carol"] [] []))).
  - repeat split; simpl; try tauto; set_solver.
  - repeat split; simpl; try tauto; set_solver.
  - reflexivity.
Defined.

Lemma compareSlices_spec_witness : ["a"; "b"] ≡ₚ ["b"; "a"].
Proof.
  assert (NoDup ["a"; "b"]) as Hnd
    by (refine (bool_decide_unpack _ _); vm_compute; exact I).
  apply (proj2 (compareSlices_spec ["a"; "b"] ["b"; "a"]) Hnd).
  reflexivity.
Defined.

Lemma NewFromString_content_witness :
  users (mkCollection false ["bob"; "bob"] [] []) = ["bob"; "bob"].
Proof.
  assert (NewFromString "!-Bob !-bob" =
          inr (mkACL collection_zero (mkCollection false ["bob"; "bob"] [] []))) as Hs
    by reflexivity.
  destruct (NewFromString_content _ _ true Hs) as (Hu & _).
  exact Hu.
Defined.

Lemma NewFromString_same_fields_witness :
  exists a2, NewFromString "!* -bob =staff -bob" = inr a2
    /\ forall (U : Type) (HU : User U) (u : U),
         ACL_Allowed (mkACL (mkCollection false ["bob"] ["staff"] [])
                            (mkCollection true [] [] [])) u
         = ACL_Allowed a2 u.
Proof.
  apply (NewFromString_same_fields "=staff -bob !*" "!* -bob =staff -bob").
  - reflexivity.
  - discriminate.
  - intros f. vm_compute Fields. rewrite !elem_of_cons, !elem_of_nil. tauto.
Defined.

Lemma AddUser_error_keeps_store_witness :
  (AddUser toy_generate toy_encode toy_decode "other" alice_db "alice" "pw2").1 = alice_db.
Proof.
  apply (AddUser_error_keeps_store toy_generate toy_encode toy_decode
           "other" alice_db _ "alice" "pw2" ErrUserExists).
  vm_compute. reflexivity.
Defined.

Lemma AddUser_other_users_witness :
  GetUser toy_decode alice_bob_db "alice" = GetUser toy_decode alice_db "alice".
Proof.
  assert (AddUser toy_generate toy_encode toy_decode "pepper" alice_db "bob" "pw2"
          = (alice_bob_db, inr (mkStoredUser "bob" (toy_pair "pepper" "pw2")))) as Ha
    by (vm_compute; reflexivity).
  destruct (AddUser_other_users toy_generate toy_compare toy_encode toy_decode
              _ _ _ _ _ _ Ha) as (_ & _ & Hothers).
  apply (Hothers "alice" "pw"). discriminate.
Defined.

Lemma AddUser_never_overwrites_witness :
  exists e, AddUser toy_generate toy_encode toy_decode "other" alice_db "alice" "pw2"
            = (alice_db, inl e).
Proof.
  apply (AddUser_never_overwrites toy_generate toy_encode toy_decode toy_own_errors
           "other" alice_db "alice" "pw2" (toy_pair "alice" (toy_pair "salt" "pw"))).
  vm_compute. reflexivity.
Defined.

Lemma AddUser_twice_witness :
  CheckPassword toy_compare toy_decode alice_bob_db "alice" "pw" = true
  /\ CheckPassword toy_compare toy_decode alice_bob_db "bob" "pw2" = true.
Proof.
  assert ("alice" <> "bob") as Hne by discriminate.
  assert (AddUser toy_generate toy_encode toy_decode "salt" empty_db "alice" "pw"
          = (alice_db, inr (mkStoredUser "alice" (toy_pair "salt" "pw")))) as H1
    by (vm_compute; reflexivity).
  assert (AddUser toy_generate toy_encode toy_decode "pepper" alice_db "bob" "pw2"
          = (alice_bob_db, inr (mkStoredUser "bob" (toy_pair "pepper" "pw2")))) as H2
    by (vm_compute; reflexivity).
  destruct (AddUser_twice toy_generate toy_compare toy_encode toy_decode
              toy_verifies toy_roundtrip
              _ _ _ _ _ _ _ _ _ _ _ Hne H1 H2) as (_ & _ & Hc1 & Hc2).
  by split.
Defined.

Lemma commandPASS_logs_in_witness :
  State (commandPASS_Execute alice_session ["pw"]).1 = true
  /\ (commandPASS_Execute alice_session ["pw"]).2 = None.
Proof.
  apply (proj2 (commandPASS_logs_in (HL := toy_SessionLaws) alice_session ["pw"]) "pw").
  - reflexivity.
  - discriminate.
  - vm_compute. reflexivity.
  - reflexivity.
Defined.

Lemma commandPASS_wrong_password_witness :
  Login (commandPASS_Execute alice_session ["guess"]).1 = ""
  /\ commandPASS_Execute (commandPASS_Execute alice_session ["guess"]).1 ["pw"]
     = ReplyStatus (commandPASS_Execute alice_session ["guess"]).1 503.
Proof.
  assert (Login alice_session <> "") as Hne by discriminate.
  assert (Auth_CheckPassword alice_session (Login alice_session) "guess" = false) as Hc
    by (vm_compute; reflexivity).
  destruct (commandPASS_wrong_password (HL := toy_SessionLaws) alice_session "guess" Hne Hc)
    as (Hl & _ & Hnext).
  split; [exact Hl | apply Hnext].
Defined.

Lemma NewFromString_white_space_witness :
  NewFromString (" " +:+ String "194" (String "160" (String "009" "")))
    = inr ACL_zero
  /\ ACL_Allowed ACL_zero (mkIdentity "user" ["group"] ["1"]) = false.
Proof.
  assert (forall r, IsSpace r = true -> unicode_ToLower r = r) as Hfix.
  { intros r. unfold IsSpace, unicode_ToLower, unicode_To_LowerCase, example_table.
    repeat match goal with
           | |- context [(?a <=? ?b)%N] => destruct (N.leb_spec a b)
           | |- context [(?a =? ?b)%N] => destruct (N.eqb_spec a b)
           end; simpl; try discriminate; intros _; lia. }
  assert (" " +:+ String "194" (String "160" (String "009" "")) <> EmptyString)
    as Hne by discriminate.
  assert (all_space (" " +:+ String "194" (String "160" (String "009" ""))) = true)
    as Hsp by reflexivity.
  destruct (NewFromString_white_space _ Hfix Hne Hsp) as (_ & Hs & Hz).
  split; [exact Hs | apply Hz].
Defined.

Lemma NewFromString_unprefixed_is_group_witness :
  NewFromString "Staff !1 -bob" =
    inr (mkACL (mkCollection false ["bob"] ["staff"] [])
               (mkCollection false [] ["1"] []))
  /\ "staff" ∈ groups (mkCollection false ["bob"] ["staff"] []).
Proof.
  assert (NewFromString "Staff !1 -bob" =
    inr (mkACL (mkCollection false ["bob"] ["staff"] [])
               (mkCollection false [] ["1"] []))) as Hs by reflexivity.
  split; [exact Hs |].
  destruct (NewFromString_unprefixed_is_group _ _ Hs) as (H1 & _).
  apply (H1 "s"%char "taff").
  - vm_compute. by left.
  - discriminate.
  - repeat split; discriminate.
Defined.


Lemma bcrypt72_verifies (salt pass : string) (cost : nat) (h : string) :
  bcrypt72_generate salt pass cost = inr h -> bcrypt72_compare h pass = None.
Proof.
  intros [= <-]. unfold bcrypt72_compare. rewrite toy_unpair_pair. simpl.
  by rewrite String.eqb_refl.
Qed.

